(** * Lab_2_4_LR2: linear regression, metrics and one-hot encoding

    A shallow embedding of [src/Lab_2_4_LR2.py].

    Conventions of the embedding.
    - A Python/NumPy float is read as a real number ([R]); rounding, [nan]
      and [inf] are not represented.  Where NumPy divides by a zero float
      (and answers [nan]/[inf] with a warning) the model carries Rocq's
      total division; where Python itself divides by the integer [0] the
      model raises [ZeroDivisionError], as the interpreter does.
    - A one-dimensional array is a list; a two-dimensional array is a
      record of its column count and its rows, so that an array with no
      row still knows its second dimension ([X.shape[1]]).
    - A method of [LinearRegressor] is a computation over the object (and
      the standard output) that either returns or raises; the object keeps
      whatever was written to it before an exception.
    - [np.linalg.pinv] and the draws of [np.random.rand] are not code of
      this file: they are parameters of the section that embeds the class.
    - The data array of [one_hot_encode] is given by its element type
      ([dtype]) and its cells, integers or strings; what [np.insert] puts
      into it is converted to that type. *)

From Stdlib Require Import Reals Lra Lia ZArith.
From stdpp Require Import base list strings pretty gmap sorting.

Local Open Scope R_scope.

(** ** Python exceptions and results *)

Module Py.

Inductive exn : Type :=
| ValueError (msg : string)
| KeyError (key : string)
| ZeroDivisionError
| IndexError
| TypeError.

Inductive result (A : Type) : Type :=
| Ok (a : A)
| Raise (e : exn).
Arguments Ok {A} a.
Arguments Raise {A} e.

Definition rbind {A B} (r : result A) (k : A → result B) : result B :=
  match r with
  | Ok a => k a
  | Raise e => Raise e
  end.

(** [a / n] for a Python float [a] and a Python int [n]. *)
Definition float_div_int (a : R) (n : nat) : result R :=
  if decide (n = 0%nat) then Raise ZeroDivisionError else Ok (a / INR n).

End Py.
Export Py.

Declare Scope result_scope.
Delimit Scope result_scope with result.
Notation "x ← r ; k" := (rbind r (λ x, k))
  (at level 20, r at level 100, k at level 200, only parsing) : result_scope.

(** ** The NumPy operations the program uses *)

Module Np.

Record array2 (A : Type) : Type := Array2 { ncols : nat; rows : list (list A) }.
Arguments Array2 {A} ncols rows.
Arguments ncols {A} a.
Arguments rows {A} a.

Definition nrows {A} (X : array2 A) : nat := length (rows X).

(** Every NumPy array is rectangular: this is the well-formedness of the
    representation, not a check the program makes. *)
Definition wf {A} (X : array2 A) : Prop :=
  Forall (λ r, length r = ncols X) (rows X).

Inductive ndarray : Type :=
| A1 (v : list R)
| A2 (m : array2 R).

(** [X.reshape(-1, 1)] on a one-dimensional array *)
Definition reshape_column (v : list R) : array2 R :=
  Array2 1 (map (λ x, [x]) v).

(** [np.ones(n)] *)
Definition ones (n : nat) : list R := replicate n 1.

(** [np.c_[v, X]]: [v] becomes the first column of the result. *)
Definition c_ (v : list R) (X : array2 R) : array2 R :=
  Array2 (S (ncols X)) (zip_with cons v (rows X)).

(** [X[:, 1:]] *)
Definition cols_from_1 {A} (X : array2 A) : array2 A :=
  Array2 (ncols X - 1) (map (drop 1) (rows X)).

(** [X[:, j]] for an index already known to be in range *)
Definition column (X : array2 R) (j : nat) : list R :=
  map (λ r, nth j r 0) (rows X).

(** [X.T] *)
Definition transpose (X : array2 R) : array2 R :=
  Array2 (nrows X) (map (column X) (seq 0 (ncols X))).

(** [np.sum] of a one-dimensional array *)
Definition sum (v : list R) : R := foldr Rplus 0 v.

(** [np.mean] of a one-dimensional array ([nan] on the empty array in
    NumPy; here the total division) *)
Definition mean (v : list R) : R := sum v / INR (length v).

Definition shape_error : exn := ValueError "shapes not aligned".
Definition broadcast_error : exn :=
  ValueError "operands could not be broadcast together".

(** An elementwise binary operation on one-dimensional arrays, with
    NumPy's broadcasting of a length-one operand. *)
Definition broadcast (f : R → R → R) (u v : list R) : result (list R) :=
  if decide (length u = length v) then Ok (zip_with f u v)
  else match u, v with
       | _, [b] => Ok (map (λ a, f a b) u)
       | [a], _ => Ok (map (f a) v)
       | _, _ => Raise broadcast_error
       end.

(** An in-place operation [u op= v]: the result keeps the shape of [u]. *)
Definition broadcast_inplace (f : R → R → R) (u v : list R)
  : result (list R) :=
  if decide (length u = length v) then Ok (zip_with f u v)
  else match v with
       | [b] => Ok (map (λ a, f a b) u)
       | _ => Raise broadcast_error
       end.

(** The inner product of two one-dimensional arrays of one length *)
Definition inner (u v : list R) : R := sum (zip_with Rmult u v).

(** [X.dot(v)], [X @ v] for a two-dimensional [X] and one-dimensional [v] *)
Definition dot (X : array2 R) (v : list R) : result (list R) :=
  if decide (ncols X = length v) then Ok (map (λ r, inner r v) (rows X))
  else Raise shape_error.

(** [A @ B] for two-dimensional arrays *)
Definition matmul (A B : array2 R) : result (array2 R) :=
  if decide (ncols A = nrows B)
  then Ok (Array2 (ncols B)
             (map (λ r, map (λ c, inner r c) (rows (transpose B))) (rows A)))
  else Raise shape_error.

(** [v[0]] *)
Definition item0 (v : list R) : result R :=
  match v with
  | x :: _ => Ok x
  | [] => Raise IndexError
  end.

(** [v[1:]] *)
Definition from_1 (v : list R) : list R := drop 1 v.

End Np.
Export Np.

(** ** [evaluate_regression] *)

Module Metrics.

Definition square (e : R) : R := e ^ 2.

Definition evaluate_regression (y_true y_pred : list R)
  : result (gmap string R) :=
  (residual ← broadcast Rminus y_true y_pred;
   let RSS := sum (map square residual) in
   let TSS := sum (map (λ a, square (a - mean y_true)) y_true) in
   let r_squared := 1 - RSS / TSS in
   let N := length y_pred in
   inv_N ← float_div_int 1 N;
   let rmse := sqrt (inv_N * sum (map square residual)) in
   let mae := inv_N * sum (map Rabs residual) in
   Ok (<["R2" := r_squared]> (<["RMSE" := rmse]> (<["MAE" := mae]> ∅))))%result.

(** [d[key]] on the dictionary returned above *)
Definition getitem (d : gmap string R) (key : string) : result R :=
  match d !! key with
  | Some v => Ok v
  | None => Raise (KeyError key)
  end.

End Metrics.
Export Metrics.

(** ** The class [LinearRegressor] *)

Module Regressor.

Record LinearRegressor : Type := Build {
  coefficients : option (list R);
  intercept : option R;
  loss_values : option (list R);
  param_history : option (list (list R))
}.

(** What a method call can observe and change: the object, the lines
    printed so far (epoch and value), and how many draws the random
    generator has handed out. *)
Record world : Type := World {
  self : LinearRegressor;
  stdout : list (Z * R);
  drawn : nat
}.

Definition M (A : Type) : Type := world → result A * world.

Definition ret {A} (a : A) : M A := λ w, (Ok a, w).
Definition raise {A} (e : exn) : M A := λ w, (Raise e, w).
Definition bind {A B} (m : M A) (k : A → M B) : M B :=
  λ w, match m w with
       | (Ok a, w') => k a w'
       | (Raise e, w') => (Raise e, w')
       end.
Definition lift {A} (r : result A) : M A := λ w, (r, w).
Definition get_self : M LinearRegressor := λ w, (Ok (self w), w).
Definition set_self (f : LinearRegressor → LinearRegressor) : M unit :=
  λ w, (Ok tt, World (f (self w)) (stdout w) (drawn w)).
Definition print (epoch : Z) (v : R) : M unit :=
  λ w, (Ok tt, World (self w) (stdout w ++ [(epoch, v)]) (drawn w)).

Declare Scope method_scope.
Delimit Scope method_scope with method.
Notation "x ← m ; k" := (bind m (λ x, k))
  (at level 20, m at level 100, k at level 200, only parsing) : method_scope.

Definition set_coefficients (c : list R) : M unit :=
  set_self (λ s, Build (Some c) (intercept s) (loss_values s) (param_history s)).
Definition set_intercept (b : R) : M unit :=
  set_self (λ s, Build (coefficients s) (Some b) (loss_values s) (param_history s)).
Definition set_loss_values (l : list R) : M unit :=
  set_self (λ s, Build (coefficients s) (intercept s) (Some l) (param_history s)).
Definition set_param_history (h : list (list R)) : M unit :=
  set_self (λ s, Build (coefficients s) (intercept s) (loss_values s) (Some h)).

(** [self.loss_values.append(mse)] *)
Definition append_loss (mse : R) : M unit :=
  set_self (λ s, Build (coefficients s) (intercept s)
                   ((λ l, l ++ [mse]) <$> loss_values s) (param_history s)).

(** [self.param_history.append((self.intercept, *self.coefficients))] *)
Definition append_params (snapshot : list R) : M unit :=
  set_self (λ s, Build (coefficients s) (intercept s) (loss_values s)
                   ((λ h, h ++ [snapshot]) <$> param_history s)).

(** Reading a parameter for arithmetic or unpacking: [None] is no number
    and no sequence. *)
Definition get_intercept : M R :=
  (s ← get_self;
   match intercept s with
   | Some b => ret b
   | None => raise TypeError
   end)%method.
Definition get_coefficients : M (list R) :=
  (s ← get_self;
   match coefficients s with
   | Some c => ret c
   | None => raise TypeError
   end)%method.

(** [__init__] *)
Definition init : LinearRegressor := Build None None None None.

Definition not_fitted : exn := ValueError "Model is not yet fitted".

Definition method_not_available (method : string) : exn :=
  ValueError ("Method " +:+ method
              +:+ " not available for training linear regression.").

(** [for epoch in range(n): body(epoch)], from epoch [first] on *)
Fixpoint for_range (first : Z) (n : nat) (body : Z → M unit) : M unit :=
  match n with
  | O => ret tt
  | S k => (_ ← body first; for_range (first + 1) k body)%method
  end.

(** The outcome of running [m] from [w] satisfies [Q] if it returns and
    [E] if it raises. *)
Definition wp {A} (m : M A) (Q : A → world → Prop) (E : exn → world → Prop)
    (w : world) : Prop :=
  match m w with
  | (Ok a, w') => Q a w'
  | (Raise e, w') => E e w'
  end.

Section Methods.

(** [np.linalg.pinv] *)
Variable pinv : array2 R → array2 R.

(** The successive values of [np.random.rand], each in [[0, 1)]. *)
Variable tape : nat → R.

(** [np.random.rand()] *)
Definition random_rand : M R :=
  λ w, (Ok (tape (drawn w)), World (self w) (stdout w) (S (drawn w))).

(** [np.random.rand(k)]; a negative [k] is refused. *)
Definition random_rand_n (k : Z) : M (list R) :=
  if decide (k < 0)%Z
  then raise (ValueError "negative dimensions are not allowed")
  else λ w, (Ok (map tape (seq (drawn w) (Z.to_nat k))),
             World (self w) (stdout w) (drawn w + Z.to_nat k)).

Definition predict (X : ndarray) : M (list R) :=
  (s ← get_self;
   match coefficients s, intercept s with
   | Some c, Some b =>
       match X with
       | A1 x =>
           lift (prod ← broadcast Rmult x c; Ok (map (λ p, p + b) prod))%result
       | A2 x =>
           lift (prod ← dot x c; Ok (map (λ p, p + b) prod))%result
       end
   | _, _ => raise not_fitted
   end)%method.

Definition fit_multiple (X : array2 R) (y : list R) : M unit :=
  (g ← lift (matmul (transpose X) X);
   h ← lift (matmul (pinv g) (transpose X));
   w ← lift (dot h y);
   w0 ← lift (item0 w);
   _ ← set_intercept w0;
   set_coefficients (from_1 w))%method.

(** One pass through the body of the loop of [fit_gradient_descent]. *)
Definition gradient_descent_epoch (X : array2 R) (y : list R)
    (learning_rate : R) (m : nat) (epoch : Z) : M unit :=
  (predictions ← predict (A2 (cols_from_1 X));
   error ← lift (broadcast Rminus predictions y);
   let mse := mean (map square error) in
   _ ← append_loss mse;
   b ← get_intercept;
   c ← get_coefficients;
   _ ← append_params (b :: c);
   scale ← lift (float_div_int learning_rate m);
   xte ← lift (dot (transpose X) error);
   let gradient := map (Rmult scale) xte in
   g0 ← lift (item0 gradient);
   b ← get_intercept;
   _ ← set_intercept (b - g0);
   c ← get_coefficients;
   c' ← lift (broadcast_inplace Rminus c (from_1 gradient));
   _ ← set_coefficients c';
   if decide (epoch mod 100000 = 0)%Z
   then (d ← lift (evaluate_regression y predictions);
         rmse ← lift (getitem d "RMSE");
         print epoch (rmse ^ 2))
   else ret tt)%method.

Definition fit_gradient_descent (X : array2 R) (y : list R)
    (learning_rate : R) (iterations : Z) : M unit :=
  (let m := length y in
   c ← random_rand_n (Z.of_nat (ncols X) - 1);
   _ ← set_coefficients (map (λ r, r * 0.01) c);
   b ← random_rand;
   _ ← set_intercept (b * 0.01);
   _ ← set_loss_values [];
   _ ← set_param_history [];
   for_range 0 (Z.to_nat iterations)
     (gradient_descent_epoch X y learning_rate m))%method.

Definition fit (X : ndarray) (y : list R) (method : string)
    (learning_rate : R) (iterations : Z) : M unit :=
  if negb (bool_decide (method ∈ ["least_squares"; "gradient_descent"]))
  then raise (method_not_available method)
  else
    let X := match X with
             | A1 v => reshape_column v
             | A2 m => m
             end in
    let X_with_bias := c_ (ones (nrows X)) X in
    if bool_decide (method = "least_squares")
    then fit_multiple X_with_bias y
    else if bool_decide (method = "gradient_descent")
    then fit_gradient_descent X_with_bias y learning_rate iterations
    else ret tt.

End Methods.

End Regressor.
Export Regressor.

(** ** [one_hot_encode] *)

Module OneHot.

(** A cell of the data array: an integer or a string.  (Arrays of
    floats are not covered.) *)
Inductive cell : Type :=
| CInt (z : Z)
| CStr (s : string).

(** The element type of the data array: 64-bit integers, strings of at
    most [width] characters ([<U1], [<U2], ...), or Python objects.  An
    array is given by its element type and its cells; [np.delete] and
    [np.insert] return an array of the element type of their first
    argument, so the result of [one_hot_encode] has the type of [X]. *)
Inductive dtype : Type :=
| int64
| unicode (width : positive)
| object.

(** [np.array(z, dtype=dt)] for an integer [z]: the number as an element
    of an array of type [dt].  A string array holds its decimal writing,
    cut to the width of the array. *)
Definition astype (dt : dtype) (z : Z) : cell :=
  match dt with
  | int64 | object => CInt z
  | unicode width => CStr (String.substring 0 (Pos.to_nat width) (pretty z))
  end.

#[export] Instance cell_eq_dec : EqDecision cell.
Proof. solve_decision. Defined.

Definition same_kind (a b : cell) : bool :=
  match a, b with
  | CInt _, CInt _ | CStr _, CStr _ => true
  | _, _ => false
  end.

(** Python's [a <= b]; between an [int] and a [str] Python raises, and the
    order below is never consulted there (see [unique]). *)
Definition cell_leb (a b : cell) : bool :=
  match a, b with
  | CInt x, CInt y => (x <=? y)%Z
  | CStr s, CStr t => String.leb s t
  | CInt _, CStr _ => true
  | CStr _, CInt _ => false
  end.

Definition cell_le (a b : cell) : Prop := cell_leb a b = true.

#[export] Instance cell_le_dec a b : Decision (cell_le a b).
Proof. unfold cell_le. apply _. Defined.

(** All values of the column can be compared with one another. *)
Definition homogeneous (col : list cell) : bool :=
  match col with
  | [] => true
  | a :: col' => forallb (same_kind a) col'
  end.

(** The sorted distinct values of a column *)
Definition sorted_distinct (col : list cell) : list cell :=
  merge_sort cell_le (remove_dups col).

(** [np.unique(col)] *)
Definition unique (col : list cell) : result (list cell) :=
  if homogeneous col then Ok (sorted_distinct col) else Raise TypeError.

(** An index along an axis of length [n], counted from the end when
    negative; [upper] is the first index refused. *)
Definition normalize_index (n : nat) (upper : Z) (index : Z) : result nat :=
  if decide (- Z.of_nat n ≤ index < upper)%Z
  then Ok (Z.to_nat (if decide (index < 0)%Z then index + Z.of_nat n else index))
  else Raise IndexError.

(** [X[:, index]] *)
Definition getcol (X : array2 cell) (index : Z) : result (list cell) :=
  (j ← normalize_index (ncols X) (Z.of_nat (ncols X)) index;
   Ok (map (λ r, nth j r (CInt 0)) (rows X)))%result.

(** [np.delete(X, index, axis=1)] *)
Definition np_delete (X : array2 cell) (index : Z) : result (array2 cell) :=
  (j ← normalize_index (ncols X) (Z.of_nat (ncols X)) index;
   Ok (Array2 (ncols X - 1) (map (delete j) (rows X))))%result.

(** The value of [np.array(rows)] for a list of rows of [int]: with no row
    at all it is a one-dimensional empty array. *)
Inductive intarray : Type :=
| I1 (v : list Z)
| I2 (m : array2 Z).

Definition np_array (rows : list (list Z)) : intarray :=
  match rows with
  | [] => I1 []
  | r :: _ => I2 (Array2 (length r) rows)
  end.

(** [a[:, 1:]] *)
Definition drop_first_column (a : intarray) : result intarray :=
  match a with
  | I1 _ => Raise IndexError
  | I2 m => Ok (I2 (cols_from_1 m))
  end.

(** [np.insert(X, index, a.T, axis=1)] for [X] of type [dt]: the columns
    of [a] are put before column [index] of [X], converted to the type of
    [X]; a one-dimensional [a] counts as a single column. *)
Definition np_insert_T (dt : dtype) (X : array2 cell) (index : Z)
    (a : intarray) : result (array2 cell) :=
  (j ← normalize_index (ncols X) (Z.of_nat (ncols X) + 1) index;
   let new := match a with
              | I1 v => Array2 1 (map (λ z, [z]) v)
              | I2 m => m
              end in
   if decide (nrows new = nrows X)
   then Ok (Array2 (ncols X + ncols new)
              (zip_with (λ r v, take j r ++ map (astype dt) v ++ drop j r)
                 (rows X) (rows new)))
   else Raise broadcast_error)%result.

(** [[1 if category == val else 0 for val in unique_values]] *)
Definition indicator_row (unique_values : list cell) (category : cell)
  : list Z :=
  map (λ val, if decide (category = val) then 1%Z else 0%Z) unique_values.

(** One pass through the body of the loop of [one_hot_encode]. *)
Definition encode_column (dt : dtype) (X : array2 cell) (drop_first : bool)
    (X_transformed : array2 cell) (index : Z) : result (array2 cell) :=
  (categorical_column ← getcol X index;
   unique_values ← unique categorical_column;
   let one_hot :=
     np_array (map (indicator_row unique_values) categorical_column) in
   one_hot ← (if drop_first then drop_first_column one_hot else Ok one_hot);
   X_transformed ← np_delete X_transformed index;
   np_insert_T dt X_transformed index one_hot)%result.

(** [sorted(l, reverse=True)] *)
Definition sorted_reverse (l : list Z) : list Z :=
  merge_sort (flip Z.le) l.

Definition one_hot_encode (dt : dtype) (X : array2 cell)
    (categorical_indices : list Z) (drop_first : bool)
  : result (array2 cell) :=
  foldl (λ acc index,
           (X_transformed ← acc;
            encode_column dt X drop_first X_transformed index)%result)
    (Ok X) (sorted_reverse categorical_indices).

End OneHot.
Export OneHot.

(** ** Quantities the specification names *)

Module Spec.

(** RSS = Σ (y_true − y_pred)² *)
Definition RSS (y_true y_pred : list R) : R :=
  sum (map square (zip_with Rminus y_true y_pred)).

(** TSS = Σ (y_true − mean(y_true))² *)
Definition TSS (y_true : list R) : R :=
  sum (map (λ a, square (a - mean y_true)) y_true).

(** The values [fit] accepts for [method] *)
Definition valid_methods : list string :=
  ["least_squares"; "gradient_descent"].

(** The model is trained: both parameters are set. *)
Definition fitted (s : LinearRegressor) : Prop :=
  is_Some (coefficients s) ∧ is_Some (intercept s).

(** Both parameters are set, and there are [p] coefficients. *)
Definition fitted_with (p : nat) (s : LinearRegressor) : Prop :=
  ∃ c b, coefficients s = Some c ∧ intercept s = Some b ∧ length c = p.

(** An exception other than the refusal of the [method] argument *)
Definition not_method_error (e : exn) : Prop :=
  ∀ method, e ≠ method_not_available method.

(** w = pinv(XᵗX) · Xᵗ · y *)
Definition normal_equation (pinv : array2 R → array2 R) (X : array2 R)
    (y : list R) : result (list R) :=
  (g ← matmul (transpose X) X;
   h ← matmul (pinv g) (transpose X);
   dot h y)%result.

(** The invariant of the parameters: they are both unset as long as no
    data was fitted, and both set, with as many coefficients as the data
    last fitted had features, afterwards. *)
Definition parameters_inv (features : option nat) (s : LinearRegressor)
  : Prop :=
  match features with
  | None => coefficients s = None ∧ intercept s = None
  | Some p => fitted_with p s
  end.

(** The number of features of the data handed to [fit] *)
Definition feature_count (X : ndarray) : nat :=
  match X with
  | A1 _ => 1
  | A2 m => ncols m
  end.

(** The data handed to [fit], as a two-dimensional array *)
Definition as_matrix (X : ndarray) : array2 R :=
  match X with
  | A1 v => reshape_column v
  | A2 m => m
  end.

(** A column of ones put in front of the columns of [X] *)
Definition with_bias (X : array2 R) : array2 R :=
  Array2 (S (ncols X)) (map (cons 1) (rows X)).

(** Gradient descent on a bias-augmented [X]: the predictions of the
    parameters [(b, c)] on the non-bias columns, the error, the loss and
    the gradient (α/n) · Xᵗ · error, entry by entry. *)
Definition predictions (X : array2 R) (b : R) (c : list R) : list R :=
  map (λ r, inner (drop 1 r) c + b) (rows X).

Definition errors (X : array2 R) (y : list R) (b : R) (c : list R) : list R :=
  zip_with Rminus (predictions X b c) y.

Definition mse (X : array2 R) (y : list R) (b : R) (c : list R) : R :=
  mean (map square (errors X y b c)).

Definition gradient (X : array2 R) (y : list R) (α : R) (b : R) (c : list R)
  : list R :=
  map (λ j, α / INR (length y)
            * sum (map (λ i, nth j (nth i (rows X) []) 0
                             * nth i (errors X y b c) 0)
                     (seq 0 (length y))))
    (seq 0 (ncols X)).

(** intercept −= gradient[0]; coefficients −= gradient[1:] *)
Definition gd_update (X : array2 R) (y : list R) (α : R) (bc : R * list R)
  : R * list R :=
  let g := gradient X y α bc.1 bc.2 in
  (bc.1 - nth 0 g 0, zip_with Rminus bc.2 (drop 1 g)).

(** The parameters after [t] updates *)
Definition gd_params (X : array2 R) (y : list R) (α : R) (bc0 : R * list R)
    (t : nat) : R * list R :=
  Nat.iter t (gd_update X y α) bc0.

(** What is assumed of [np.linalg.pinv]: the shape of its result, and
    (where a theorem says so) that the result is the Moore–Penrose
    pseudo-inverse of its argument. *)
Definition pinv_shape (pinv : array2 R → array2 R) : Prop :=
  ∀ A, nrows (pinv A) = ncols A ∧ ncols (pinv A) = nrows A.

Definition moore_penrose (A P : array2 R) : Prop :=
  ∃ AP PA,
    matmul A P = Ok AP ∧ matmul P A = Ok PA
    ∧ matmul AP A = Ok A ∧ matmul PA P = Ok P
    ∧ transpose AP = AP ∧ transpose PA = PA.

(** A function of the shape of [np.linalg.pinv] that inverts the
    invertible 2×2 arrays; it instantiates the theorems about the
    closed-form fit. *)
Definition pinv_2x2 (A : array2 R) : array2 R :=
  match A with
  | Array2 2%nat [[a; b]; [c; d]] =>
      let det := a * d - b * c in
      Array2 2 [[d / det; - b / det]; [- c / det; a / det]]
  | _ => transpose A
  end.

(** The data of the worked example: X = [[1],[2],[3]], y = [2,4,6], and
    XᵗX for the bias-augmented X. *)
Definition example_X : ndarray := A2 (Array2 1 [[1]; [2]; [3]]).
Definition example_y : list R := [2; 4; 6].
Definition example_gram : array2 R := Array2 2 [[3; 6]; [6; 14]].

(** The parameters before the first update: [p] draws for the
    coefficients, then one for the intercept, each scaled by 0.01. *)
Definition gd_initial (tape : nat → R) (drawn p : nat) : R * list R :=
  (tape (drawn + p)%nat * 0.01,
   map (λ r, r * 0.01) (map tape (seq drawn p))).

(** One-hot encoding, column by column.  Column [j] of [X] as a list: *)
Definition cell_column (X : array2 cell) (j : nat) : list cell :=
  map (λ r, nth j r (CInt 0)) (rows X).

(** The cells that stand for [category] once column [j] is encoded: the
    indicators of the sorted distinct values of the column, without the
    first one when [drop_first] is set, as elements of an array of type
    [dt]. *)
Definition encoded_cells (dt : dtype) (X : array2 cell) (drop_first : bool)
    (j : nat) (category : cell) : list cell :=
  let indicators := indicator_row (sorted_distinct (cell_column X j)) category in
  map (astype dt) (if drop_first then drop 1 indicators else indicators).

(** A row of the result: each cell of an encoded column gives way, in
    place, to its indicators; the other cells stay.  [j] is the column of
    the first cell of [row]. *)
Fixpoint encode_row_from (dt : dtype) (X : array2 cell) (indices : list Z)
    (drop_first : bool) (j : nat) (row : list cell) : list cell :=
  match row with
  | [] => []
  | c :: row' =>
      (if decide (Z.of_nat j ∈ indices)
       then encoded_cells dt X drop_first j c
       else [c])
      ++ encode_row_from dt X indices drop_first (S j) row'
  end.

Definition encode_row (dt : dtype) (X : array2 cell) (indices : list Z)
    (drop_first : bool) (row : list cell) : list cell :=
  encode_row_from dt X indices drop_first 0 row.

(** What one pass of the loop does to a row [cur] of [X_transformed]. *)
Definition splice (j : nat) (block cur : list cell) : list cell :=
  take j (delete j cur) ++ block ++ drop j (delete j cur).

(** The vector of length [k] with a one at [rank] and zeros elsewhere *)
Definition unit_vector (k rank : nat) : list Z :=
  <[rank := 1%Z]> (replicate k 0%Z).


(** The cells of the worked example, [[["a"],["b"],["a"]]]; as an array
    made by [np.array] its type is [unicode 1] *)
Definition example_cells : array2 cell :=
  Array2 1 [[CStr "a"]; [CStr "b"]; [CStr "a"]].

(** What is asked of the arguments of [one_hot_encode]: a data array
    with at least one row, and distinct indices, counted from the front,
    of columns whose values can be compared with one another. *)
Definition encodable (X : array2 cell) (indices : list Z) : Prop :=
  wf X ∧ rows X ≠ [] ∧ NoDup indices
  ∧ ∀ idx, idx ∈ indices →
           (0 ≤ idx < Z.of_nat (ncols X))%Z
           ∧ homogeneous (cell_column X (Z.to_nat idx)) = true.

Definition binary (v : list Z) : Prop := Forall (λ z, z = 0%Z ∨ z = 1%Z) v.

(** Two one-dimensional arrays an elementwise operation accepts: of one
    length, or one of them of length one. *)
Definition broadcastable (u v : list R) : Prop :=
  length u = length v ∨ length u = 1%nat ∨ length v = 1%nat.

(** What an epoch prints: a line at every 100000th epoch. *)
Definition log_line (epoch : Z) (v : R) : list (Z * R) :=
  if decide (epoch mod 100000 = 0)%Z then [(epoch, v)] else [].

(** The lines of the first [n] epochs of gradient descent, each with the
    mean squared error of its epoch *)
Definition gd_log (X : array2 R) (y : list R) (α : R) (bc0 : R * list R)
    (n : nat) : list (Z * R) :=
  flat_map (λ t, log_line (Z.of_nat t)
                   (mse X y (gd_params X y α bc0 t).1
                      (gd_params X y α bc0 t).2))
    (seq 0 n).

(** What gradient descent keeps from its first statements on, whatever
    happens in the loop: the number of draws taken and the presence of the
    two histories. *)
Definition training_state (d : nat) (w : world) : Prop :=
  drawn w = d
  ∧ is_Some (loss_values (self w))
  ∧ is_Some (param_history (self w)).

(** The column an index stands for, counted from the end when negative *)
Definition column_of (X : array2 cell) (index : Z) : nat :=
  Z.to_nat (if decide (index < 0)%Z then index + Z.of_nat (ncols X) else index).

(** The number of cells that stand for column [j] of X in the result, and
    the position of the first of them. *)
Definition encoded_width (X : array2 cell) (indices : list Z)
    (drop_first : bool) (j : nat) : nat :=
  if decide (Z.of_nat j ∈ indices)
  then length (sorted_distinct (cell_column X j)) - (if drop_first then 1 else 0)
  else 1.

Definition encoded_offset (X : array2 cell) (indices : list Z)
    (drop_first : bool) (j : nat) : nat :=
  sum_list (map (encoded_width X indices drop_first) (seq 0 j)).

End Spec.
Export Spec.

(** * Theorems *)

(** ** Arrays *)

Lemma sum_zeros (v : list R) : Forall (λ x, x = 0) v → sum v = 0.
Proof.
  induction 1 as [|x v Hx _ IH]; simpl.
  - reflexivity.
  - rewrite Hx, IH. lra.
Qed.

Lemma zip_with_Rminus_diag (y : list R) :
  Forall (λ x, x = 0) (zip_with Rminus y y).
Proof.
  induction y as [|a y IH]; simpl; constructor; [lra | exact IH].
Qed.

Lemma broadcast_same_length f (u v : list R) :
  length u = length v → broadcast f u v = Ok (zip_with f u v).
Proof. intros H. unfold broadcast. rewrite decide_True; done. Qed.

(** ** Metrics *)

Lemma TSS_nonzero_nonempty (y : list R) : TSS y ≠ 0 → y ≠ [].
Proof. intros H ->. apply H. reflexivity. Qed.

(** C4: on sequences of one length with TSS ≠ 0, [evaluate_regression]
    returns a dictionary whose keys are exactly R2, RMSE and MAE, with
    R2 = 1 − RSS/TSS, RMSE = sqrt(mean((y_true − y_pred)²)) and
    MAE = mean(|y_true − y_pred|); when the two sequences are the same one
    the values are 1, 0 and 0. *)
Theorem evaluate_regression_metrics (y_true y_pred : list R) :
  length y_true = length y_pred →
  TSS y_true ≠ 0 →
  ∃ d : gmap string R,
    evaluate_regression y_true y_pred = Ok d
    ∧ dom d = {["R2"; "RMSE"; "MAE"]}
    ∧ d !! "R2" = Some (1 - RSS y_true y_pred / TSS y_true)
    ∧ d !! "RMSE" = Some (sqrt (mean (map square (zip_with Rminus y_true y_pred))))
    ∧ d !! "MAE" = Some (mean (map Rabs (zip_with Rminus y_true y_pred)))
    ∧ (y_pred = y_true →
       d !! "R2" = Some 1 ∧ d !! "RMSE" = Some 0 ∧ d !! "MAE" = Some 0).
Proof.
  intros Hlen Htss.
  pose proof (TSS_nonzero_nonempty _ Htss) as Hne.
  assert (HN : length y_pred ≠ 0%nat).
  { rewrite <- Hlen. destruct y_true; [done | simpl; lia]. }
  unfold evaluate_regression.
  rewrite (broadcast_same_length _ _ _ Hlen). simpl.
  unfold float_div_int. rewrite decide_False by exact HN. simpl.
  set (res := zip_with Rminus y_true y_pred).
  assert (Hl : length (map square res) = length y_pred).
  { rewrite length_map. unfold res. rewrite length_zip_with. lia. }
  assert (Hl' : length (map Rabs res) = length y_pred).
  { rewrite length_map. unfold res. rewrite length_zip_with. lia. }
  assert (Hrmse : 1 / INR (length y_pred) * sum (map square res)
                  = mean (map square res)).
  { unfold mean. rewrite Hl. unfold Rdiv. lra. }
  assert (Hmae : 1 / INR (length y_pred) * sum (map Rabs res)
                 = mean (map Rabs res)).
  { unfold mean. rewrite Hl'. unfold Rdiv. lra. }
  eexists. split; [reflexivity |].
  split; [rewrite !dom_insert_L; set_solver |].
  split; [reflexivity |].
  split; [simplify_map_eq; by rewrite Hrmse |].
  split; [simplify_map_eq; by rewrite Hmae |].
  intros ->.
  assert (Hz : Forall (λ x, x = 0) res) by apply zip_with_Rminus_diag.
  assert (Hsq : sum (map square res) = 0).
  { apply sum_zeros. rewrite Forall_map. eapply Forall_impl; [exact Hz |].
    intros x ->. unfold square. lra. }
  assert (Hab : sum (map Rabs res) = 0).
  { apply sum_zeros. rewrite Forall_map. eapply Forall_impl; [exact Hz |].
    intros x ->. apply Rabs_R0. }
  simplify_map_eq. rewrite Hsq, Hab.
  repeat split; f_equal.
  - unfold Rdiv. lra.
  - rewrite Rmult_0_r. apply sqrt_0.
  - lra.
Qed.

Lemma evaluate_regression_metrics_witness :
  ∃ d : gmap string R,
    evaluate_regression [1; 2; 3] [1; 2; 3] = Ok d
    ∧ dom d = {["R2"; "RMSE"; "MAE"]}
    ∧ d !! "R2" = Some (1 - RSS [1; 2; 3] [1; 2; 3] / TSS [1; 2; 3])
    ∧ d !! "RMSE"
      = Some (sqrt (mean (map square (zip_with Rminus [1; 2; 3] [1; 2; 3]))))
    ∧ d !! "MAE" = Some (mean (map Rabs (zip_with Rminus [1; 2; 3] [1; 2; 3])))
    ∧ ([1; 2; 3] = [1; 2; 3] →
       d !! "R2" = Some 1 ∧ d !! "RMSE" = Some 0 ∧ d !! "MAE" = Some 0).
Proof.
  apply (evaluate_regression_metrics [1; 2; 3] [1; 2; 3]).
  - reflexivity.
  - unfold TSS, mean, square. simpl. lra.
Defined.

(** ** Running methods *)

Section Wp.
Context {A : Type}.
Implicit Types (Q : A → world → Prop) (E : exn → world → Prop).

Lemma wp_ret (a : A) Q E w : Q a w → wp (ret a) Q E w.
Proof. done. Qed.

Lemma wp_raise e Q E w : E e w → wp (@raise A e) Q E w.
Proof. done. Qed.

Lemma wp_lift (r : result A) Q E w :
  match r with Ok a => Q a w | Raise e => E e w end → wp (lift r) Q E w.
Proof. unfold wp, lift. by destruct r. Qed.

Lemma wp_bind {B} (m : M B) (k : B → M A) Q E w :
  wp m (λ b w', wp (k b) Q E w') E w → wp (bind m k) Q E w.
Proof.
  unfold wp, bind. destruct (m w) as [[b|e] w']; done.
Qed.

Lemma wp_mono (m : M A) Q Q' E E' w :
  wp m Q E w →
  (∀ a w', Q a w' → Q' a w') →
  (∀ e w', E e w' → E' e w') →
  wp m Q' E' w.
Proof.
  unfold wp. destruct (m w) as [[a|e] w']; auto.
Qed.

Lemma wp_run (m : M A) Q E w :
  wp m Q E w →
  match (m w).1 with Ok a => Q a (m w).2 | Raise e => E e (m w).2 end.
Proof. unfold wp. by destruct (m w) as [[a|e] w']. Qed.

Lemma run_wp (m : M A) Q E w :
  match (m w).1 with Ok a => Q a (m w).2 | Raise e => E e (m w).2 end →
  wp m Q E w.
Proof. unfold wp. by destruct (m w) as [[a|e] w']. Qed.

End Wp.

Lemma wp_get_self Q E w : Q (self w) w → wp get_self Q E w.
Proof. done. Qed.

Lemma wp_set_self f Q E w :
  Q tt (World (f (self w)) (stdout w) (drawn w)) → wp (set_self f) Q E w.
Proof. done. Qed.

Lemma wp_print epoch v Q E w :
  Q tt (World (self w) (stdout w ++ [(epoch, v)]) (drawn w)) →
  wp (print epoch v) Q E w.
Proof. done. Qed.

Lemma wp_for_range (I : world → Prop) body n first Q E w :
  I w →
  (∀ i w', I w' → wp (body i) (λ _, I) E w') →
  (∀ w', I w' → Q tt w') →
  wp (for_range first n body) Q E w.
Proof.
  intros Hw Hbody Hpost. revert first w Hw.
  induction n as [|n IH]; intros first w Hw; simpl.
  - apply wp_ret. auto.
  - apply wp_bind. eapply wp_mono; [apply Hbody, Hw | | done].
    intros ? w' Hw'. apply IH, Hw'.
Qed.

(** ** [predict] *)

Lemma predict_fitted X w c b :
  coefficients (self w) = Some c →
  intercept (self w) = Some b →
  predict X w
  = (match X with
     | A1 x => rbind (broadcast Rmult x c) (λ prod, Ok (map (λ p, p + b) prod))
     | A2 x => rbind (dot x c) (λ prod, Ok (map (λ p, p + b) prod))
     end, w).
Proof.
  intros Hc Hb. unfold predict, bind, get_self, lift. simpl.
  rewrite Hc, Hb. by destruct X.
Qed.

Lemma predict_unfitted X w :
  coefficients (self w) = None ∨ intercept (self w) = None →
  predict X w = (Raise not_fitted, w).
Proof.
  intros H. unfold predict, bind, get_self, raise. simpl.
  destruct (coefficients (self w)), (intercept (self w)); try done.
  by destruct H.
Qed.

Lemma predict_world X w : (predict X w).2 = w.
Proof.
  destruct (coefficients (self w)) as [c|] eqn:Hc;
    [destruct (intercept (self w)) as [b|] eqn:Hb |].
  - by rewrite (predict_fitted X w c b).
  - rewrite predict_unfitted; auto.
  - rewrite predict_unfitted; auto.
Qed.

Lemma broadcast_singleton f (x : list R) (a : R) :
  broadcast f x [a] = Ok (map (λ v, f v a) x).
Proof.
  unfold broadcast.
  case_decide as Hlen; destruct x as [|v [|v' x]]; simplify_eq/=; done.
Qed.

Lemma broadcast_raises f (u v : list R) e :
  broadcast f u v = Raise e → e = broadcast_error.
Proof.
  unfold broadcast. case_decide; [done |].
  destruct u as [|? [|? ?]], v as [|? [|? ?]]; naive_solver.
Qed.

Lemma broadcast_inplace_raises f (u v : list R) e :
  broadcast_inplace f u v = Raise e → e = broadcast_error.
Proof.
  unfold broadcast_inplace. case_decide; [done |].
  destruct v as [|? [|? ?]]; naive_solver.
Qed.

Lemma dot_raises X v e : dot X v = Raise e → e = shape_error.
Proof. unfold dot. case_decide; naive_solver. Qed.

Lemma matmul_raises A B e : matmul A B = Raise e → e = shape_error.
Proof. unfold matmul. case_decide; naive_solver. Qed.

Lemma dot_aligned X v :
  ncols X = length v → dot X v = Ok (map (λ r, inner r v) (rows X)).
Proof. intros H. unfold dot. by rewrite decide_True. Qed.

(** C5: on a fitted model, [predict] on a flat input with exactly one
    coefficient returns x * coefficient + intercept elementwise; on a
    two-dimensional input whose columns are the features (no bias column)
    it returns, row by row, the dot product with the coefficients plus the
    intercept; and it leaves the model as it found it. *)
Theorem predict_values (X : ndarray) (w : world) (c : list R) (b : R) :
  coefficients (self w) = Some c →
  intercept (self w) = Some b →
  (∀ x coef, X = A1 x → c = [coef] →
     (predict X w).1 = Ok (map (λ v, v * coef + b) x))
  ∧ (∀ m, X = A2 m → ncols m = length c →
     (predict X w).1 = Ok (map (λ r, inner r c + b) (rows m)))
  ∧ (predict X w).2 = w.
Proof.
  intros Hc Hb. split_and!.
  - intros x coef -> ->. rewrite (predict_fitted _ _ _ _ Hc Hb). simpl.
    rewrite broadcast_singleton. simpl. by rewrite map_map.
  - intros m -> Hm. rewrite (predict_fitted _ _ _ _ Hc Hb). simpl.
    rewrite dot_aligned by done. simpl. by rewrite map_map.
  - apply predict_world.
Qed.

Lemma predict_values_witness :
  let w := World (Build (Some [2]) (Some 1) None None) [] 0 in
  (predict (A1 [3; 4]) w).1 = Ok [3 * 2 + 1; 4 * 2 + 1]
  ∧ (predict (A1 [3; 4]) w).2 = w.
Proof.
  intros w.
  destruct (predict_values (A1 [3; 4]) w [2] 1 eq_refl eq_refl) as (H1 & _ & H3).
  split; [exact (H1 [3; 4] 2 eq_refl eq_refl) | exact H3].
Defined.

(** ** Exceptions of the library calls *)

Lemma not_method_error_shape : not_method_error shape_error.
Proof. intros m H. unfold method_not_available in H. simplify_eq/=. Qed.

Lemma not_method_error_broadcast : not_method_error broadcast_error.
Proof. intros m H. unfold method_not_available in H. simplify_eq/=. Qed.

Lemma not_method_error_not_fitted : not_method_error not_fitted.
Proof. intros m H. unfold method_not_available in H. simplify_eq/=. Qed.

Lemma not_method_error_dimensions :
  not_method_error (ValueError "negative dimensions are not allowed").
Proof. intros m H. unfold method_not_available in H. simplify_eq/=. Qed.

Lemma not_method_error_other e :
  match e with ValueError _ => False | _ => True end → not_method_error e.
Proof. intros H m ->. done. Qed.

Create HintDb exceptions.
#[export] Hint Resolve not_method_error_shape not_method_error_broadcast
  not_method_error_not_fitted not_method_error_dimensions : exceptions.

Lemma item0_raises v e : item0 v = Raise e → e = IndexError.
Proof. destruct v; naive_solver. Qed.

Lemma float_div_int_raises a n e :
  float_div_int a n = Raise e → e = ZeroDivisionError.
Proof. unfold float_div_int. case_decide; naive_solver. Qed.

Lemma getitem_raises d key e : getitem d key = Raise e → e = KeyError key.
Proof. unfold getitem. destruct (d !! key); naive_solver. Qed.

Lemma evaluate_regression_raises y_true y_pred e :
  evaluate_regression y_true y_pred = Raise e →
  e = broadcast_error ∨ e = ZeroDivisionError.
Proof.
  unfold evaluate_regression.
  destruct (broadcast Rminus y_true y_pred) as [res|e'] eqn:Hb; simpl.
  - destruct (float_div_int 1 (length y_pred)) as [q|e'] eqn:Hq; simpl; [done |].
    intros [= <-]. right. by eapply float_div_int_raises.
  - intros [= <-]. left. by eapply broadcast_raises.
Qed.

Lemma normal_equation_raises pinv X y e :
  normal_equation pinv X y = Raise e → e = shape_error.
Proof.
  unfold normal_equation.
  destruct (matmul (transpose X) X) as [g|e1] eqn:Hg; simpl.
  - destruct (matmul (pinv g) (transpose X)) as [h|e2] eqn:Hh; simpl.
    + apply dot_raises.
    + intros [= <-]. by eapply matmul_raises.
  - intros [= <-]. by eapply matmul_raises.
Qed.

(** ** [fit_multiple] *)

Lemma fit_multiple_run pinv X y w :
  fit_multiple pinv X y w
  = match normal_equation pinv X y with
    | Ok (w0 :: c) =>
        (Ok tt,
         World (Build (Some c) (Some w0)
                  (loss_values (self w)) (param_history (self w)))
           (stdout w) (drawn w))
    | Ok [] => (Raise IndexError, w)
    | Raise e => (Raise e, w)
    end.
Proof.
  unfold fit_multiple, normal_equation, bind, lift.
  destruct (matmul (transpose X) X) as [g|e1]; simpl; [|done].
  destruct (matmul (pinv g) (transpose X)) as [h|e2]; simpl; [|done].
  destruct (dot h y) as [[|w0 c]|e3]; simpl; done.
Qed.

(** ** [fit_gradient_descent]: what every outcome preserves *)

Lemma length_broadcast_inplace f (u v r : list R) :
  broadcast_inplace f u v = Ok r → length r = length u.
Proof.
  unfold broadcast_inplace. case_decide as Hlen.
  - intros [= <-]. rewrite length_zip_with. lia.
  - destruct v as [|? [|? ?]]; intros [= <-]. by rewrite length_map.
Qed.

Lemma wp_predict X Q E w :
  fitted (self w) →
  (∀ r, Q r w) →
  (∀ e, not_method_error e → e ≠ not_fitted → E e w) →
  wp (predict X) Q E w.
Proof.
  intros [[c Hc] [b Hb]] HQ HE. apply run_wp.
  rewrite (predict_fitted X w c b Hc Hb). simpl.
  destruct X as [x|x]; simpl.
  - destruct (broadcast Rmult x c) as [r|e] eqn:Hr; simpl; [apply HQ |].
    apply broadcast_raises in Hr as ->.
    apply HE; [auto with exceptions | done].
  - destruct (dot x c) as [r|e] eqn:Hr; simpl; [apply HQ |].
    apply dot_raises in Hr as ->.
    apply HE; [auto with exceptions | done].
Qed.

Lemma fitted_with_fitted p s : fitted_with p s → fitted s.
Proof. intros (c & b & Hc & Hb & _). unfold fitted. rewrite Hc, Hb. eauto. Qed.

Lemma wp_epoch_fitted X y lr m epoch p w :
  fitted_with p (self w) →
  wp (gradient_descent_epoch X y lr m epoch)
    (λ _ w', fitted_with p (self w'))
    (λ e w', not_method_error e ∧ fitted_with p (self w')) w.
Proof.
  intros Hw. pose proof Hw as (c & b & Hc & Hb & Hlen).
  unfold gradient_descent_epoch.
  apply wp_bind, wp_predict; [by eapply fitted_with_fitted | | by auto].
  intros predictions.
  apply wp_bind, wp_lift.
  destruct (broadcast Rminus predictions y) as [error|e] eqn:Herr;
    [| apply broadcast_raises in Herr as ->; auto with exceptions].
  apply wp_bind, wp_set_self.
  unfold get_intercept, get_coefficients.
  apply wp_bind, wp_bind, wp_get_self. simpl. rewrite ?Hb. apply wp_ret.
  apply wp_bind, wp_bind, wp_get_self. simpl. rewrite ?Hc. apply wp_ret.
  apply wp_bind, wp_set_self.
  assert (Hw1 : ∀ l h, fitted_with p (Build (Some c) (Some b) l h)).
  { intros. by exists c, b. }
  apply wp_bind, wp_lift.
  destruct (float_div_int lr m) as [scale|e] eqn:Hscale;
    [| apply float_div_int_raises in Hscale as ->; simpl; rewrite ?Hc, ?Hb;
       split; [by apply not_method_error_other | apply Hw1]].
  apply wp_bind, wp_lift.
  destruct (dot (transpose X) error) as [xte|e] eqn:Hxte;
    [| apply dot_raises in Hxte as ->; simpl; rewrite ?Hc, ?Hb;
       split; [auto with exceptions | apply Hw1]].
  apply wp_bind, wp_lift.
  destruct (item0 (map (Rmult scale) xte)) as [g0|e] eqn:Hg0;
    [| apply item0_raises in Hg0 as ->; simpl; rewrite ?Hc, ?Hb;
       split; [by apply not_method_error_other | apply Hw1]].
  apply wp_bind, wp_bind, wp_get_self. simpl. rewrite ?Hb. apply wp_ret.
  apply wp_bind, wp_set_self.
  apply wp_bind, wp_bind, wp_get_self. simpl. rewrite ?Hc. apply wp_ret.
  apply wp_bind, wp_lift.
  destruct (broadcast_inplace Rminus c (from_1 (map (Rmult scale) xte)))
    as [c'|e] eqn:Hc';
    [| apply broadcast_inplace_raises in Hc' as ->; simpl;
       split; [auto with exceptions | by exists c, (b - g0)]].
  apply length_broadcast_inplace in Hc'.
  apply wp_bind, wp_set_self. simpl.
  assert (Hw2 : ∀ l h, fitted_with p (Build (Some c') (Some (b - g0)) l h)).
  { intros. exists c', (b - g0). split_and!; [done..|]. simpl. lia. }
  case_decide; [| apply wp_ret, Hw2].
  apply wp_bind, wp_lift.
  destruct (evaluate_regression y predictions) as [d|e] eqn:Hd;
    [| apply evaluate_regression_raises in Hd as [-> | ->];
       (split; [first [by auto with exceptions
                      | by apply not_method_error_other] | apply Hw2])].
  apply wp_bind, wp_lift.
  destruct (getitem d "RMSE") as [rmse|e] eqn:Hrmse;
    [| apply getitem_raises in Hrmse as ->;
       split; [by apply not_method_error_other | apply Hw2]].
  apply wp_print, Hw2.
Qed.

Lemma wp_fit_gradient_descent_fitted tape X y lr iterations w :
  wp (fit_gradient_descent tape X y lr iterations)
    (λ _ w', fitted_with (ncols X - 1) (self w'))
    (λ e w', not_method_error e
             ∧ (w' = w ∨ fitted_with (ncols X - 1) (self w'))) w.
Proof.
  unfold fit_gradient_descent.
  apply wp_bind. unfold random_rand_n.
  case_decide as Hneg; [apply wp_raise; auto with exceptions |].
  apply run_wp. simpl. apply wp_bind, wp_set_self.
  apply wp_bind, run_wp. simpl.
  apply wp_bind, wp_set_self. apply wp_bind, wp_set_self.
  apply wp_bind, wp_set_self. simpl.
  eapply wp_mono with
    (Q := λ _ w', fitted_with (ncols X - 1) (self w'))
    (E := λ e w', not_method_error e ∧ fitted_with (ncols X - 1) (self w')).
  - apply (wp_for_range (λ w', fitted_with (ncols X - 1) (self w'))).
    + eexists _, _. split_and!; [done..|]. simpl.
      rewrite !length_map, length_seq. lia.
    + intros i w' Hw'. apply wp_epoch_fitted, Hw'.
    + intros w' Hw'. exact Hw'.
  - done.
  - intros e w' [? ?]. auto.
Qed.

Lemma nrows_transpose X : nrows (transpose X) = ncols X.
Proof. unfold nrows, transpose. simpl. by rewrite length_map, length_seq. Qed.

Lemma nrows_matmul A B C : matmul A B = Ok C → nrows C = nrows A.
Proof.
  unfold matmul. case_decide; [|done]. intros [= <-].
  unfold nrows. simpl. by rewrite length_map.
Qed.

Lemma length_dot X v r : dot X v = Ok r → length r = nrows X.
Proof.
  unfold dot. case_decide; [|done]. intros [= <-]. by rewrite length_map.
Qed.

Lemma ncols_matmul A B C : matmul A B = Ok C → ncols C = ncols B.
Proof. unfold matmul. case_decide; [|done]. by intros [= <-]. Qed.

Lemma pinv_shape_transpose : pinv_shape transpose.
Proof. intros A. split; [apply nrows_transpose | done]. Qed.

Lemma length_normal_equation pinv X y r :
  pinv_shape pinv →
  normal_equation pinv X y = Ok r → length r = ncols X.
Proof.
  intros Hpinv. unfold normal_equation.
  destruct (matmul (transpose X) X) as [g|] eqn:Hg; simpl; [|done].
  destruct (matmul (pinv g) (transpose X)) as [h|] eqn:Hh; simpl; [|done].
  intros Hr. apply length_dot in Hr. apply nrows_matmul in Hh.
  apply ncols_matmul in Hg.
  rewrite Hr, Hh. destruct (Hpinv g) as [-> _]. done.
Qed.

Lemma feature_count_as_matrix X : ncols (as_matrix X) = feature_count X.
Proof. by destruct X. Qed.

Lemma valid_methods_cases method :
  method ∈ valid_methods →
  method = "least_squares" ∨ method = "gradient_descent".
Proof.
  unfold valid_methods. intros H.
  apply elem_of_cons in H as [-> | H]; [by left |].
  apply elem_of_cons in H as [-> | H]; [by right |].
  by apply elem_of_nil in H.
Qed.

(** What a call to [fit] can end in. *)
Lemma fit_outcome pinv tape X y method lr iterations w :
  let r := fit pinv tape X y method lr iterations w in
  match fst r with
  | Ok _ =>
      method ∈ valid_methods
      ∧ ∃ c b, coefficients (self (snd r)) = Some c
               ∧ intercept (self (snd r)) = Some b
               ∧ (pinv_shape pinv → length c = feature_count X)
  | Raise e =>
      ((method ∉ valid_methods) ∧ e = method_not_available method ∧ snd r = w)
      ∨ (method ∈ valid_methods ∧ not_method_error e
         ∧ (snd r = w ∨ fitted_with (feature_count X) (self (snd r))))
  end.
Proof.
  simpl. unfold fit. fold (as_matrix X). fold valid_methods.
  case_bool_decide as Hm; simpl; [| by left].
  case_bool_decide as Hls.
  - rewrite fit_multiple_run.
    destruct (normal_equation _ _ _) as [[|w0 c]|e] eqn:Hne; simpl.
    + right. split_and!; [done | by apply not_method_error_other | by left].
    + split; [done |]. exists c, w0. split_and!; [done..|].
      intros Hpinv. apply (length_normal_equation _ _ _ _ Hpinv) in Hne.
      simpl in Hne. rewrite feature_count_as_matrix in Hne. lia.
    + right. apply normal_equation_raises in Hne as ->.
      split_and!; [done | auto with exceptions | by left].
  - case_bool_decide as Hgd.
    + pose proof (wp_fit_gradient_descent_fitted tape
                    (c_ (ones (nrows (as_matrix X))) (as_matrix X))
                    y lr iterations w) as Hwp.
      apply wp_run in Hwp. simpl in Hwp.
      rewrite Nat.sub_0_r, feature_count_as_matrix in Hwp.
      destruct (fit_gradient_descent _ _ _ _ _ _).1 as [[]|e].
      * split; [done |]. destruct Hwp as (c & b & ? & ? & ?). eauto.
      * right. destruct Hwp. done.
    + by destruct (valid_methods_cases _ Hm).
Qed.

(** ** The errors of [predict] and [fit], and the invariant of the model *)

(** C6: [predict] raises the not-fitted error exactly when the intercept or
    the coefficients are unset, whatever the shape of its input: it does on
    a model that was never fitted, and it does not after a call to [fit]
    that returned. *)
Theorem predict_not_fitted_iff pinv tape (X : ndarray) (w : world) :
  (fst (predict X w) = Raise not_fitted
   ↔ coefficients (self w) = None ∨ intercept (self w) = None)
  ∧ (∀ out n, fst (predict X (World init out n)) = Raise not_fitted)
  ∧ (∀ X0 y method lr iterations,
       fst (fit pinv tape X0 y method lr iterations w) = Ok tt →
       fst (predict X (snd (fit pinv tape X0 y method lr iterations w)))
       ≠ Raise not_fitted).
Proof.
  assert (Hfitted : ∀ w0, fitted (self w0) →
                          fst (predict X w0) ≠ Raise not_fitted).
  { intros w0 Hw0.
    pose proof (wp_predict X (λ _ _, True)
                  (λ e _, e ≠ not_fitted) w0 Hw0) as Hwp.
    apply wp_run in Hwp; [| done | done].
    destruct (fst (predict X w0)); [done | congruence]. }
  split_and!.
  - split.
    + intros Hraise.
      destruct (coefficients (self w)) as [c|] eqn:Hc; [| by left].
      destruct (intercept (self w)) as [b|] eqn:Hb; [| by right].
      exfalso. apply (Hfitted w); [| done].
      unfold fitted. rewrite Hc, Hb. eauto.
    + intros H. by rewrite predict_unfitted.
  - intros out n. rewrite predict_unfitted; [done | by left].
  - intros X0 y method lr iterations Hok.
    pose proof (fit_outcome pinv tape X0 y method lr iterations w) as Hfit.
    simpl in Hfit. rewrite Hok in Hfit.
    destruct Hfit as (_ & c & b & Hc & Hb & _).
    apply Hfitted. unfold fitted. rewrite Hc, Hb. eauto.
Qed.

(** C7: [fit] raises the invalid-argument error exactly when [method] is
    neither "least_squares" nor "gradient_descent", and then nothing was
    written: the model (and everything else) is as before the call. *)
Theorem fit_method_error pinv tape (X : ndarray) (y : list R)
    (method : string) (lr : R) (iterations : Z) (w : world) :
  (fst (fit pinv tape X y method lr iterations w)
   = Raise (method_not_available method)
   ↔ method ∉ valid_methods)
  ∧ (method ∉ valid_methods →
     snd (fit pinv tape X y method lr iterations w) = w).
Proof.
  pose proof (fit_outcome pinv tape X y method lr iterations w) as Hfit.
  simpl in Hfit. split.
  - split.
    + intros Hraise. rewrite Hraise in Hfit.
      destruct Hfit as [(Hm & _) | (_ & Hne & _)]; [done |].
      by destruct (Hne method).
    + intros Hm. unfold fit. fold valid_methods.
      by rewrite bool_decide_eq_false_2.
  - intros Hm. unfold fit. fold valid_methods.
    by rewrite bool_decide_eq_false_2.
Qed.

Lemma fit_method_error_witness :
  snd (fit (λ A, A) (λ _, 0) (A1 [1]) [1] "ridge" 0.01 10
         (World init [] 0))
  = World init [] 0.
Proof.
  apply (fit_method_error (λ A, A) (λ _, 0) (A1 [1]) [1] "ridge" 0.01 10).
  unfold valid_methods. intros H.
  apply elem_of_cons in H as [H | H]; [done |].
  apply elem_of_cons in H as [H | H]; [done |].
  by apply elem_of_nil in H.
Defined.

Lemma predict_not_fitted_iff_witness :
  fst (predict (A1 [4])
         (snd (fit (λ A, A) (λ _, 0) (A1 [1]) [1] "gradient_descent" 0.01 0
                 (World init [] 0))))
  ≠ Raise not_fitted.
Proof.
  apply (predict_not_fitted_iff (λ A, A) (λ _, 0) (A1 [4]) (World init [] 0)).
  reflexivity.
Defined.

Lemma fit_gradient_descent_overwrites tape X y lr iterations s s' out n :
  (0 < ncols X)%nat →
  fit_gradient_descent tape X y lr iterations (World s out n)
  = fit_gradient_descent tape X y lr iterations (World s' out n).
Proof.
  intros Hp. unfold fit_gradient_descent, bind at 1 3, random_rand_n.
  rewrite decide_False by lia. reflexivity.
Qed.

Lemma fit_overwrites pinv tape X y method lr iterations s s' out n :
  let r := fit pinv tape X y method lr iterations (World s out n) in
  let r' := fit pinv tape X y method lr iterations (World s' out n) in
  fst r = Ok tt →
  fst r' = Ok tt
  ∧ coefficients (self (snd r')) = coefficients (self (snd r))
  ∧ intercept (self (snd r')) = intercept (self (snd r)).
Proof.
  simpl. unfold fit. fold valid_methods.
  case_bool_decide as Hm; simpl; [| by unfold raise].
  case_bool_decide as Hls.
  - rewrite !fit_multiple_run.
    by destruct (normal_equation _ _ _) as [[|w0 c]|e].
  - case_bool_decide as Hgd;
      [| by destruct (valid_methods_cases _ Hm)].
    rewrite (fit_gradient_descent_overwrites _ _ _ _ _ s s') by (simpl; lia).
    done.
Qed.

(** C10: the parameters are both unset at construction; every call of
    [fit], [fit_multiple], [fit_gradient_descent] or [predict], returning
    or raising, keeps them either both unset or both set with as many
    coefficients as the fitted data has features; a call of [fit] that
    returns has written both, and what it wrote does not depend on what
    an earlier fit had left. *)
Theorem parameters_invariant pinv tape :
  pinv_shape pinv →
  parameters_inv None init
  ∧ (∀ X y method lr iterations g w,
       let w' := snd (fit pinv tape X y method lr iterations w) in
       parameters_inv g (self w) →
       parameters_inv g (self w')
       ∨ parameters_inv (Some (feature_count X)) (self w'))
  ∧ (∀ X y g w,
       let w' := snd (fit_multiple pinv X y w) in
       parameters_inv g (self w) →
       parameters_inv g (self w')
       ∨ parameters_inv (Some (ncols X - 1)%nat) (self w'))
  ∧ (∀ X y lr iterations g w,
       let w' := snd (fit_gradient_descent tape X y lr iterations w) in
       parameters_inv g (self w) →
       parameters_inv g (self w')
       ∨ parameters_inv (Some (ncols X - 1)%nat) (self w'))
  ∧ (∀ X g w,
       parameters_inv g (self w) →
       parameters_inv g (self (snd (predict X w))))
  ∧ (∀ X y method lr iterations w,
       let r := fit pinv tape X y method lr iterations w in
       fst r = Ok tt →
       parameters_inv (Some (feature_count X)) (self (snd r)))
  ∧ (∀ X y method lr iterations s s' out n,
       let r := fit pinv tape X y method lr iterations (World s out n) in
       let r' := fit pinv tape X y method lr iterations (World s' out n) in
       fst r = Ok tt →
       fst r' = Ok tt
       ∧ coefficients (self (snd r')) = coefficients (self (snd r))
       ∧ intercept (self (snd r')) = intercept (self (snd r))).
Proof.
  intros Hpinv. split_and!.
  - done.
  - intros X y method lr iterations g w w' Hg. subst w'.
    pose proof (fit_outcome pinv tape X y method lr iterations w) as Hfit.
    simpl in Hfit.
    destruct (fst (fit pinv tape X y method lr iterations w)) as [[]|e].
    + right. destruct Hfit as (_ & c & b & Hc & Hb & Hlen).
      exists c, b. auto.
    + destruct Hfit as [(_ & _ & ->) | (_ & _ & [-> | Hw'])]; auto.
  - intros X y g w w' Hg. subst w'. rewrite fit_multiple_run.
    destruct (normal_equation pinv X y) as [[|w0 c]|e] eqn:Hne; simpl; auto.
    right. exists c, w0. split_and!; [done..|].
    apply (length_normal_equation _ _ _ _ Hpinv) in Hne. simpl in Hne. lia.
  - intros X y lr iterations g w w' Hg. subst w'.
    pose proof (wp_fit_gradient_descent_fitted tape X y lr iterations w)
      as Hwp.
    apply wp_run in Hwp.
    destruct (fst (fit_gradient_descent tape X y lr iterations w))
      as [[]|e]; [by right |].
    destruct Hwp as [_ [-> | Hw']]; auto.
  - intros X g w Hg. by rewrite predict_world.
  - intros X y method lr iterations w r Hok. subst r.
    pose proof (fit_outcome pinv tape X y method lr iterations w) as Hfit.
    simpl in Hfit. rewrite Hok in Hfit.
    destruct Hfit as (_ & c & b & Hc & Hb & Hlen). exists c, b. auto.
  - intros X y method lr iterations s s' out n. apply fit_overwrites.
Qed.

Lemma parameters_invariant_witness :
  parameters_inv (Some 1%nat)
    (self (snd (fit transpose (λ _, 0) (A1 [1]) [1] "gradient_descent" 0.01 0
                  (World init [] 0)))).
Proof.
  destruct (parameters_invariant transpose (λ _, 0) pinv_shape_transpose)
    as (_ & _ & _ & _ & _ & H & _).
  exact (H (A1 [1]) [1] "gradient_descent" 0.01 0%Z (World init [] 0) eq_refl).
Defined.

(** ** One epoch of gradient descent *)

Lemma zip_with_Rmult_nth (u v : list R) :
  length u = length v →
  zip_with Rmult u v
  = map (λ i, nth i u 0 * nth i v 0) (seq 0 (length u)).
Proof.
  revert v. induction u as [|a u IH]; intros [|b v] Hlen; simplify_eq/=.
  - done.
  - f_equal. rewrite <- seq_shift, map_map. by apply IH.
Qed.

Lemma nth_column X j i :
  (i < nrows X)%nat → nth i (column X j) 0 = nth j (nth i (rows X) []) 0.
Proof.
  unfold column, nrows. revert i.
  induction (rows X) as [|r l IH]; intros [|i] Hi; simpl in *;
    [lia | lia | done | apply IH; lia].
Qed.

Lemma length_column X j : length (column X j) = nrows X.
Proof. unfold column. by rewrite length_map. Qed.

Lemma inner_column X j (v : list R) :
  length v = nrows X →
  inner (column X j) v
  = sum (map (λ i, nth j (nth i (rows X) []) 0 * nth i v 0)
           (seq 0 (nrows X))).
Proof.
  intros Hlen. unfold inner.
  rewrite zip_with_Rmult_nth by (by rewrite length_column).
  rewrite length_column. f_equal. apply map_ext_in.
  intros i Hi%in_seq. rewrite nth_column by lia. done.
Qed.

Lemma length_predictions X b c : length (predictions X b c) = nrows X.
Proof. unfold predictions. by rewrite length_map. Qed.

Lemma length_errors X y b c :
  nrows X = length y → length (errors X y b c) = length y.
Proof.
  intros H. unfold errors. rewrite length_zip_with, length_predictions. lia.
Qed.

Lemma length_gradient X y α b c : length (gradient X y α b c) = ncols X.
Proof. unfold gradient. by rewrite length_map, length_seq. Qed.

Lemma predict_non_bias_columns X w c b :
  coefficients (self w) = Some c →
  intercept (self w) = Some b →
  ncols X = S (length c) →
  predict (A2 (cols_from_1 X)) w = (Ok (predictions X b c), w).
Proof.
  intros Hc Hb Hp. rewrite (predict_fitted _ _ _ _ Hc Hb).
  rewrite dot_aligned by (simpl; lia). simpl.
  unfold predictions. by rewrite !map_map.
Qed.

Lemma dot_transpose X y b c :
  nrows X = length y →
  dot (transpose X) (errors X y b c)
  = Ok (map (λ j, inner (column X j) (errors X y b c)) (seq 0 (ncols X))).
Proof.
  intros Hn. rewrite dot_aligned by (simpl; by rewrite length_errors).
  simpl. by rewrite map_map.
Qed.

Lemma scaled_dot_transpose X y α b c :
  nrows X = length y →
  map (Rmult (α / INR (length y)))
    (map (λ j, inner (column X j) (errors X y b c)) (seq 0 (ncols X)))
  = gradient X y α b c.
Proof.
  intros Hn. rewrite map_map. unfold gradient. apply map_ext.
  intros j. rewrite inner_column by (by rewrite length_errors).
  by rewrite Hn.
Qed.

Lemma item0_nth (v : list R) : v ≠ [] → item0 v = Ok (nth 0 v 0).
Proof. by destruct v. Qed.

Lemma evaluate_regression_ok y_true y_pred :
  length y_true = length y_pred → y_pred ≠ [] →
  ∃ d rmse, evaluate_regression y_true y_pred = Ok d
            ∧ getitem d "RMSE" = Ok rmse.
Proof.
  intros Hlen Hne. unfold evaluate_regression.
  rewrite broadcast_same_length by done. simpl.
  unfold float_div_int. rewrite decide_False by (by destruct y_pred).
  simpl. eexists _, _. split; [done |]. unfold getitem. by simplify_map_eq.
Qed.

(** One pass through the loop body, on well-shaped data. *)
Lemma wp_epoch X y α epoch w b c :
  nrows X = length y →
  y ≠ [] →
  ncols X = S (length c) →
  coefficients (self w) = Some c →
  intercept (self w) = Some b →
  wp (gradient_descent_epoch X y α (length y) epoch)
    (λ _ w',
       self w'
       = Build (Some (gd_update X y α (b, c)).2)
           (Some (gd_update X y α (b, c)).1)
           ((λ l, l ++ [mse X y b c]) <$> loss_values (self w))
           ((λ h, h ++ [b :: c]) <$> param_history (self w))
       ∧ drawn w' = drawn w)
    (λ _ _, False) w.
Proof.
  intros Hn Hy Hp Hc Hb. unfold gradient_descent_epoch.
  apply wp_bind, run_wp.
  rewrite (predict_non_bias_columns X w c b Hc Hb Hp). simpl.
  apply wp_bind, wp_lift.
  rewrite broadcast_same_length by (by rewrite length_predictions).
  fold (errors X y b c).
  apply wp_bind, wp_set_self.
  unfold get_intercept, get_coefficients.
  apply wp_bind, wp_bind, wp_get_self. simpl. rewrite ?Hb. apply wp_ret.
  apply wp_bind, wp_bind, wp_get_self. simpl. rewrite ?Hc. apply wp_ret.
  apply wp_bind, wp_set_self.
  apply wp_bind, wp_lift.
  unfold float_div_int. rewrite decide_False by (by destruct y).
  apply wp_bind, wp_lift. rewrite dot_transpose by done.
  rewrite scaled_dot_transpose by done.
  apply wp_bind, wp_lift.
  rewrite item0_nth
    by (intros Hg; apply (f_equal length) in Hg;
        rewrite length_gradient in Hg; simpl in Hg; lia).
  apply wp_bind, wp_bind, wp_get_self. simpl. rewrite ?Hb. apply wp_ret.
  apply wp_bind, wp_set_self.
  apply wp_bind, wp_bind, wp_get_self. simpl. rewrite ?Hc. apply wp_ret.
  apply wp_bind, wp_lift. unfold broadcast_inplace.
  rewrite decide_True
    by (unfold from_1; rewrite length_drop, length_gradient; lia).
  apply wp_bind, wp_set_self. simpl.
  case_decide; [| by apply wp_ret].
  destruct (evaluate_regression_ok y (predictions X b c)) as (d & rmse & Hd & Hr).
  { by rewrite length_predictions. }
  { intros Hnil. apply (f_equal length) in Hnil.
    rewrite length_predictions, Hn in Hnil. by destruct y. }
  apply wp_bind, wp_lift. rewrite Hd.
  apply wp_bind, wp_lift. rewrite Hr.
  by apply wp_print.
Qed.

(** C1: one iteration of gradient descent on a bias-augmented [X] with
    [n = len(y)] rows and [p + 1] columns computes the predictions of the
    current intercept and coefficients on the non-bias columns, the error
    predictions − y and the gradient (α/n) · Xᵗ · error, of length [p + 1],
    and then subtracts gradient[0] from the intercept and gradient[1:],
    elementwise, from the coefficients. *)
Theorem gradient_descent_epoch_update (X : array2 R) (y : list R) (α : R)
    (epoch : Z) (w : world) (b : R) (c : list R) :
  nrows X = length y →
  y ≠ [] →
  ncols X = S (length c) →
  coefficients (self w) = Some c →
  intercept (self w) = Some b →
  let r := gradient_descent_epoch X y α (length y) epoch w in
  let g := gradient X y α b c in
  fst r = Ok tt
  ∧ length g = S (length c)
  ∧ intercept (self (snd r)) = Some (b - nth 0 g 0)
  ∧ coefficients (self (snd r)) = Some (zip_with Rminus c (drop 1 g)).
Proof.
  intros Hn Hy Hp Hc Hb r g.
  pose proof (wp_epoch X y α epoch w b c Hn Hy Hp Hc Hb) as Hwp.
  apply wp_run in Hwp. fold r in Hwp.
  destruct (fst r) as [[]|e]; [| done].
  destruct Hwp as [Hself _]. rewrite Hself. simpl.
  split_and!; try done.
  subst g. by rewrite length_gradient.
Qed.

Lemma gradient_descent_epoch_update_witness :
  let X := Array2 2 [[1; 1]; [1; 2]] in
  let y := [1; 2] in
  let w := World (Build (Some [0]) (Some 0) (Some []) (Some [])) [] 0 in
  let r := gradient_descent_epoch X y 0.1 (length y) 0 w in
  let g := gradient X y 0.1 0 [0] in
  fst r = Ok tt
  ∧ length g = 2%nat
  ∧ intercept (self (snd r)) = Some (0 - nth 0 g 0)
  ∧ coefficients (self (snd r)) = Some (zip_with Rminus [0] (drop 1 g)).
Proof.
  intros X y w.
  apply (gradient_descent_epoch_update X y 0.1 0 w 0 [0]); done.
Defined.

(** ** The loop of gradient descent *)

Lemma wp_for_range_indexed (I : nat → world → Prop) body n first Q E w :
  I 0%nat w →
  (∀ k w', (k < n)%nat → I k w' →
           wp (body (first + Z.of_nat k)%Z) (λ _, I (S k)) E w') →
  (∀ w', I n w' → Q tt w') →
  wp (for_range first n body) Q E w.
Proof.
  revert I first w. induction n as [|n IH]; intros I first w Hw Hbody Hpost.
  - apply wp_ret. auto.
  - simpl. apply wp_bind.
    eapply wp_mono with (Q := λ _, I 1%nat) (E := E); [| | done].
    + specialize (Hbody 0%nat w). rewrite Z.add_0_r in Hbody.
      apply Hbody; [lia | done].
    + intros ? w' Hw'. apply (IH (λ k, I (S k))); [done | | done].
      intros k w'' Hk Hw''.
      replace (first + 1 + Z.of_nat k)%Z with (first + Z.of_nat (S k))%Z by lia.
      apply Hbody; [lia | done].
Qed.

Lemma length_gd_update X y α bc :
  ncols X = S (length bc.2) →
  length (gd_update X y α bc).2 = length bc.2.
Proof.
  intros Hp. unfold gd_update. simpl.
  rewrite length_zip_with, length_drop, length_gradient. lia.
Qed.

Lemma gd_params_S X y α bc t :
  gd_params X y α bc (S t) = gd_update X y α (gd_params X y α bc t).
Proof. reflexivity. Qed.

Lemma length_gd_params X y α bc t :
  ncols X = S (length bc.2) →
  length (gd_params X y α bc t).2 = length bc.2.
Proof.
  intros Hp. induction t as [|t IH]; [done |].
  rewrite gd_params_S, length_gd_update; [done | by rewrite IH].
Qed.

(** The parameters [np.random.rand] gives the model before the loop *)
Lemma wp_gradient_descent_loop X y α n w bc0 :
  nrows X = length y →
  y ≠ [] →
  ncols X = S (length bc0.2) →
  self w = Build (Some bc0.2) (Some bc0.1) (Some []) (Some []) →
  wp (for_range 0 n (gradient_descent_epoch X y α (length y)))
    (λ _ w',
       self w'
       = Build (Some (gd_params X y α bc0 n).2)
           (Some (gd_params X y α bc0 n).1)
           (Some (map (λ t, mse X y (gd_params X y α bc0 t).1
                              (gd_params X y α bc0 t).2) (seq 0 n)))
           (Some (map (λ t, (gd_params X y α bc0 t).1
                            :: (gd_params X y α bc0 t).2) (seq 0 n))))
    (λ _ _, False) w.
Proof.
  intros Hn Hy Hp Hw.
  apply (wp_for_range_indexed
    (λ k w',
       self w'
       = Build (Some (gd_params X y α bc0 k).2)
           (Some (gd_params X y α bc0 k).1)
           (Some (map (λ t, mse X y (gd_params X y α bc0 t).1
                              (gd_params X y α bc0 t).2) (seq 0 k)))
           (Some (map (λ t, (gd_params X y α bc0 t).1
                            :: (gd_params X y α bc0 t).2) (seq 0 k))))).
  - done.
  - intros k w' Hk Hw'.
    eapply wp_mono with (E := λ _ _, False); [| | done].
    + apply (wp_epoch X y α _ w' (gd_params X y α bc0 k).1
               (gd_params X y α bc0 k).2); try done.
      * by rewrite length_gd_params.
      * by rewrite Hw'.
      * by rewrite Hw'.
    + intros _ w'' [Hself _].
      rewrite !seq_S, !map_app, gd_params_S, Hself, Hw'.
      rewrite Nat.add_0_l.
      destruct (gd_params X y α bc0 k) as [bk ck] eqn:Hbc.
      simpl. by rewrite Hbc.
  - done.
Qed.

(** C8: gradient descent makes exactly T passes, whatever the losses are:
    the parameters it leaves are those after T updates, and the loss
    history and the parameter history have T entries each, entry t being
    the mean squared error and the intercept followed by the coefficients
    as they were before update t. *)
Theorem fit_gradient_descent_iterations tape (X : array2 R) (y : list R)
    (α : R) (T : Z) (w : world) :
  nrows X = length y →
  y ≠ [] →
  (0 < ncols X)%nat →
  (0 ≤ T)%Z →
  let params := gd_params X y α (gd_initial tape (drawn w) (ncols X - 1)) in
  let r := fit_gradient_descent tape X y α T w in
  fst r = Ok tt
  ∧ coefficients (self (snd r)) = Some (params (Z.to_nat T)).2
  ∧ intercept (self (snd r)) = Some (params (Z.to_nat T)).1
  ∧ ∃ losses history,
      loss_values (self (snd r)) = Some losses
      ∧ param_history (self (snd r)) = Some history
      ∧ Z.of_nat (length losses) = T
      ∧ Z.of_nat (length history) = T
      ∧ ∀ t, (t < Z.to_nat T)%nat →
             losses !! t = Some (mse X y (params t).1 (params t).2)
             ∧ history !! t = Some ((params t).1 :: (params t).2).
Proof.
  intros Hn Hy Hp HT params r.
  set (bc0 := gd_initial tape (drawn w) (ncols X - 1)) in *.
  assert (Hlen0 : ncols X = S (length bc0.2)).
  { unfold bc0, gd_initial. simpl. rewrite !length_map, length_seq. lia. }
  assert (Hwp : wp (fit_gradient_descent tape X y α T)
    (λ _ w',
       self w'
       = Build (Some (params (Z.to_nat T)).2) (Some (params (Z.to_nat T)).1)
           (Some (map (λ t, mse X y (params t).1 (params t).2)
                    (seq 0 (Z.to_nat T))))
           (Some (map (λ t, (params t).1 :: (params t).2)
                    (seq 0 (Z.to_nat T)))))
    (λ _ _, False) w).
  { unfold fit_gradient_descent.
    apply wp_bind. unfold random_rand_n. rewrite decide_False by lia.
    apply run_wp. simpl. apply wp_bind, wp_set_self.
    apply wp_bind, run_wp. simpl.
    apply wp_bind, wp_set_self. apply wp_bind, wp_set_self.
    apply wp_bind, wp_set_self. simpl.
    apply (wp_gradient_descent_loop X y α (Z.to_nat T) _ bc0 Hn Hy Hlen0).
    simpl. unfold bc0, gd_initial. simpl.
    by replace (Z.to_nat (Z.of_nat (ncols X) - 1)) with (ncols X - 1)%nat
      by lia. }
  apply wp_run in Hwp. fold r in Hwp.
  destruct (fst r) as [[]|e]; [| done].
  rewrite Hwp. simpl. split_and!; try done.
  eexists _, _. split_and!; try done.
  - rewrite length_map, length_seq. lia.
  - rewrite length_map, length_seq. lia.
  - intros t Ht.
    rewrite !list_lookup_fmap, lookup_seq_lt by done. done.
Qed.

Lemma fit_gradient_descent_iterations_witness :
  let X := Array2 2 [[1; 1]; [1; 2]] in
  let y := [1; 2] in
  let w := World init [] 0 in
  let params := gd_params X y 0.1 (gd_initial (λ _, 0) 0 1) in
  let r := fit_gradient_descent (λ _, 0) X y 0.1 2 w in
  fst r = Ok tt
  ∧ coefficients (self (snd r)) = Some (params 2%nat).2
  ∧ intercept (self (snd r)) = Some (params 2%nat).1
  ∧ ∃ losses history,
      loss_values (self (snd r)) = Some losses
      ∧ param_history (self (snd r)) = Some history
      ∧ Z.of_nat (length losses) = 2%Z
      ∧ Z.of_nat (length history) = 2%Z
      ∧ ∀ t, (t < 2)%nat →
             losses !! t = Some (mse X y (params t).1 (params t).2)
             ∧ history !! t = Some ((params t).1 :: (params t).2).
Proof.
  intros X y w.
  apply (fit_gradient_descent_iterations (λ _, 0) X y 0.1 2 w);
    [done | done | simpl; lia | lia].
Defined.

(** ** The closed-form fit *)

Lemma c__ones (X : array2 R) : c_ (ones (nrows X)) X = with_bias X.
Proof.
  unfold c_, with_bias, ones, nrows. f_equal.
  induction (rows X) as [|r l IH]; simpl; [done | by rewrite IH].
Qed.

Lemma nrows_with_bias X : nrows (with_bias X) = nrows X.
Proof. unfold nrows, with_bias. simpl. by rewrite length_map. Qed.

Lemma wf_matmul A B C : matmul A B = Ok C → wf C.
Proof.
  unfold matmul. case_decide; [|done]. intros [= <-].
  unfold wf. simpl. apply Forall_map, Forall_true. intros r. simpl.
  by rewrite !length_map, length_seq.
Qed.

Lemma normal_equation_ok pinv X y :
  pinv_shape pinv → nrows X = length y →
  ∃ wv, normal_equation pinv X y = Ok wv ∧ length wv = ncols X.
Proof.
  intros Hpinv Hn. unfold normal_equation.
  assert (∃ g, matmul (transpose X) X = Ok g) as [g Hg].
  { unfold matmul. rewrite decide_True by done. eauto. }
  rewrite Hg. simpl.
  assert (∃ h, matmul (pinv g) (transpose X) = Ok h) as [h Hh].
  { unfold matmul. rewrite decide_True; [eauto |].
    destruct (Hpinv g) as [_ ->]. apply nrows_matmul in Hg.
    by rewrite Hg. }
  rewrite Hh. simpl.
  assert (∃ wv, dot h y = Ok wv) as [wv Hwv].
  { unfold dot. rewrite decide_True; [eauto |].
    apply ncols_matmul in Hh. rewrite Hh. simpl. done. }
  exists wv. split; [done |].
  eapply length_normal_equation; [done |].
  unfold normal_equation. rewrite Hg. simpl. rewrite Hh. done.
Qed.

Lemma fit_least_squares_run pinv tape X y lr iterations w :
  fit pinv tape X y "least_squares" lr iterations w
  = fit_multiple pinv (with_bias (as_matrix X)) y w.
Proof.
  unfold fit. simpl. fold (as_matrix X). by rewrite c__ones.
Qed.

(** The pseudo-inverse of an array with two rows and two columns has two
    rows of two entries. *)
Lemma moore_penrose_2x2 A P :
  nrows P = 2%nat → ncols P = 2%nat → moore_penrose A P →
  ∃ a b c d, P = Array2 2 [[a; b]; [c; d]].
Proof.
  intros Hr Hc (AP & PA & _ & _ & _ & HP & _).
  apply wf_matmul in HP. destruct P as [n rs]. unfold wf, nrows in *.
  simpl in *. subst n.
  destruct rs as [|r1 [|r2 [|r3 rs]]]; simplify_eq/=.
  apply Forall_cons in HP as [H1 HP]. apply Forall_cons in HP as [H2 _].
  destruct r1 as [|a [|b [|? ?]]]; simplify_eq/=.
  destruct r2 as [|c [|d [|? ?]]]; simplify_eq/=.
  eauto.
Qed.

Lemma moore_penrose_example P :
  nrows P = 2%nat → ncols P = 2%nat → moore_penrose example_gram P →
  P = Array2 2 [[7 / 3; -1]; [-1; 1 / 2]].
Proof.
  intros Hr Hc HP.
  destruct (moore_penrose_2x2 _ _ Hr Hc HP) as (a & b & c & d & ->).
  destruct HP as (AP & PA & HAP & _ & HAPA & _).
  unfold example_gram, matmul in HAP, HAPA. simpl in HAP.
  injection HAP as <-. simpl in HAPA.
  unfold inner in HAPA. simpl in HAPA.
  injection HAPA as H1 H2 H3 H4.
  repeat f_equal; lra.
Qed.

Lemma example_gram_eq :
  matmul (transpose (with_bias (as_matrix example_X)))
    (with_bias (as_matrix example_X))
  = Ok example_gram.
Proof.
  unfold matmul, example_gram. simpl. f_equal. f_equal.
  unfold inner. simpl. repeat f_equal; lra.
Qed.

(** C3: fitting by "least_squares" puts a column of ones in front of X (a
    flat X being first made a single column), computes
    w = pinv(XᵗX) · Xᵗ · y on that array, and stores w[0] as the intercept
    and w[1:] as the coefficients; for X = [[1],[2],[3]], y = [2,4,6] and
    a [pinv] that is the Moore–Penrose pseudo-inverse the intercept is 0,
    the coefficients are [2] and [predict([4])] is [8]. *)
Theorem fit_least_squares pinv tape (X : ndarray) (y : list R) (lr : R)
    (iterations : Z) (w : world) :
  pinv_shape pinv →
  nrows (as_matrix X) = length y →
  let r := fit pinv tape X y "least_squares" lr iterations w in
  (∃ wv, normal_equation pinv (with_bias (as_matrix X)) y = Ok wv
         ∧ fst r = Ok tt
         ∧ intercept (self (snd r)) = Some (nth 0 wv 0)
         ∧ coefficients (self (snd r)) = Some (drop 1 wv)
         ∧ length (drop 1 wv) = feature_count X)
  ∧ (X = example_X → y = example_y →
     moore_penrose example_gram (pinv example_gram) →
     intercept (self (snd r)) = Some 0
     ∧ coefficients (self (snd r)) = Some [2]
     ∧ fst (predict (A1 [4]) (snd r)) = Ok [8]).
Proof.
  intros Hpinv Hn r. subst r. rewrite fit_least_squares_run.
  rewrite fit_multiple_run. split.
  - destruct (normal_equation_ok pinv (with_bias (as_matrix X)) y Hpinv)
      as (wv & Hwv & Hlen).
    { by rewrite nrows_with_bias. }
    simpl in Hlen. rewrite feature_count_as_matrix in Hlen.
    exists wv. rewrite Hwv. destruct wv as [|w0 c]; [done |].
    simpl in *. rewrite drop_0. split_and!; try done. lia.
  - intros -> -> HP.
    apply moore_penrose_example in HP; [| apply Hpinv..].
    unfold normal_equation. rewrite example_gram_eq. simpl. rewrite HP.
    unfold matmul, dot, inner, example_y. simpl.
    replace ((7 / 3 * 1 + (-1 * 1 + 0)) * 2
             + ((7 / 3 * 1 + (-1 * 2 + 0)) * 4
                + ((7 / 3 * 1 + (-1 * 3 + 0)) * 6 + 0))) with 0 by lra.
    replace ((-1 * 1 + (1 / 2 * 1 + 0)) * 2
             + ((-1 * 1 + (1 / 2 * 2 + 0)) * 4
                + ((-1 * 1 + (1 / 2 * 3 + 0)) * 6 + 0))) with 2 by lra.
    split_and!; try done.
    do 2 f_equal. lra.
Qed.

Lemma pinv_shape_2x2 : pinv_shape pinv_2x2.
Proof.
  intros [n rs]. unfold pinv_2x2.
  destruct n as [|[|[|n]]]; try apply pinv_shape_transpose.
  destruct rs as [|[|a [|b [|? ?]]] [|[|c [|d [|? ?]]] [|? ?]]];
    try apply pinv_shape_transpose.
  done.
Qed.

Lemma moore_penrose_example_2x2 :
  moore_penrose example_gram (pinv_2x2 example_gram).
Proof.
  exists (Array2 2 [[1; 0]; [0; 1]]), (Array2 2 [[1; 0]; [0; 1]]).
  unfold example_gram, pinv_2x2, matmul, transpose, column, inner. simpl.
  split_and!; repeat f_equal; lra.
Qed.

Lemma fit_least_squares_witness :
  let r := fit pinv_2x2 (λ _, 0) example_X example_y "least_squares" 0.01 1000
             (World init [] 0) in
  intercept (self (snd r)) = Some 0
  ∧ coefficients (self (snd r)) = Some [2]
  ∧ fst (predict (A1 [4]) (snd r)) = Ok [8].
Proof.
  intros r.
  destruct (fit_least_squares pinv_2x2 (λ _, 0) example_X example_y 0.01 1000
              (World init [] 0) pinv_shape_2x2 eq_refl) as [_ H].
  exact (H eq_refl eq_refl moore_penrose_example_2x2).
Defined.

(** ** One-hot encoding: a row of the result *)

Lemma lookup_nth {A} (l : list A) (j : nat) (d : A) :
  (j < length l)%nat → l !! j = Some (nth j l d).
Proof.
  intros Hj. destruct (lookup_lt_is_Some_2 l j Hj) as [x Hx].
  by rewrite (nth_lookup_Some _ _ d _ Hx).
Qed.

Section EncodeRow.
Variables (dt : dtype) (X : array2 cell) (drop_first : bool).

Lemma encode_row_from_app indices j (r1 r2 : list cell) :
  encode_row_from dt X indices drop_first j (r1 ++ r2)
  = encode_row_from dt X indices drop_first j r1
    ++ encode_row_from dt X indices drop_first (j + length r1) r2.
Proof.
  revert j. induction r1 as [|c r1 IH]; intros j; simpl.
  - by rewrite Nat.add_0_r.
  - rewrite IH, <- app_assoc. do 3 f_equal. lia.
Qed.

Lemma encode_row_from_ext indices indices' j (row : list cell) :
  (∀ i, (j ≤ i < j + length row)%nat →
        Z.of_nat i ∈ indices ↔ Z.of_nat i ∈ indices') →
  encode_row_from dt X indices drop_first j row
  = encode_row_from dt X indices' drop_first j row.
Proof.
  revert j. induction row as [|c row IH]; intros j Hext; simpl; [done |].
  rewrite IH by (intros i Hi; apply Hext; simpl; lia).
  f_equal. specialize (Hext j). simpl in Hext.
  destruct (decide (Z.of_nat j ∈ indices)) as [Hin | Hin].
  - rewrite decide_True; [done |]. apply Hext; [lia | done].
  - rewrite decide_False; [done |]. intros Hin'. apply Hin, Hext; [lia | done].
Qed.

Lemma encode_row_from_untouched indices j (row : list cell) :
  (∀ i, (j ≤ i < j + length row)%nat → Z.of_nat i ∉ indices) →
  encode_row_from dt X indices drop_first j row = row.
Proof.
  revert j. induction row as [|c row IH]; intros j Hno; simpl; [done |].
  rewrite IH by (intros i Hi; apply Hno; simpl; lia).
  rewrite decide_False by (apply Hno; simpl; lia). done.
Qed.

Lemma splice_in_range j block (cur : list cell) :
  (j < length cur)%nat →
  splice j block cur = take j cur ++ block ++ drop (S j) cur.
Proof.
  intros Hj. unfold splice. rewrite delete_take_drop.
  rewrite take_app_le, drop_app_ge by (rewrite ?length_take; lia).
  rewrite take_take, length_take.
  replace (j `min` j)%nat with j by lia.
  replace (j - j `min` length cur)%nat with 0%nat by lia.
  done.
Qed.

(** The indices still to be processed are below [t]; the row read so far
    agrees with the original row below [t]. *)
Lemma foldl_splice (row : list cell) (l : list Z) :
  StronglySorted (λ a b, b < a)%Z l →
  ∀ t tail,
    (∀ idx, idx ∈ l → 0 ≤ idx < Z.of_nat t)%Z →
    (t ≤ length row)%nat →
    foldl (λ cur idx,
             splice (Z.to_nat idx)
               (encoded_cells dt X drop_first (Z.to_nat idx)
                  (nth (Z.to_nat idx) row (CInt 0))) cur)
      (take t row ++ tail) l
    = encode_row_from dt X l drop_first 0 (take t row) ++ tail.
Proof.
  induction 1 as [|idx l Hsorted IH Hlt]; intros t tail Hrange Ht; simpl.
  - rewrite encode_row_from_untouched; [done |].
    intros i _. apply not_elem_of_nil.
  - assert (Hidx : (0 ≤ idx < Z.of_nat t)%Z) by (apply Hrange; left).
    set (j := Z.to_nat idx).
    assert (Hj : (j < t)%nat) by lia.
    rewrite Forall_forall in Hlt.
    rewrite splice_in_range by (rewrite length_app, length_take; lia).
    rewrite take_app_le, drop_app_le by (rewrite length_take; lia).
    rewrite take_take. replace (j `min` t)%nat with j by lia.
    rewrite <- ?app_assoc.
    rewrite IH; [| | lia].
    2:{ intros idx' Hin. specialize (Hlt idx' Hin).
        assert (Hin' : idx' ∈ idx :: l) by (by right).
        specialize (Hrange idx' Hin'). lia. }
    assert (Hsplit : take t row
                     = take j row ++ [nth j row (CInt 0)]
                       ++ drop (S j) (take t row)).
    { rewrite <- (take_drop j (take t row)) at 1.
      rewrite take_take. replace (j `min` t)%nat with j by lia.
      f_equal. rewrite (drop_S _ (nth j row (CInt 0)) j); [done |].
      rewrite lookup_take_lt by lia. apply lookup_nth. lia. }
    rewrite Hsplit at 2.
    rewrite !encode_row_from_app. simpl.
    rewrite length_take. replace (j `min` length row)%nat with j by lia.
    rewrite decide_True by (rewrite elem_of_cons; left; lia).
    rewrite <- !app_assoc. f_equal.
    + apply encode_row_from_ext. intros i Hi. rewrite length_take in Hi.
      rewrite elem_of_cons. split; [auto |]. intros [Heq | Hin]; [lia | done].
    + f_equal. rewrite encode_row_from_untouched; [done |].
      intros i Hi Hin. apply elem_of_cons in Hin as [Heq | Hin]; [lia |].
      specialize (Hlt _ Hin). lia.
Qed.

End EncodeRow.

(** ** One-hot encoding: the loop *)

Lemma Forall_zip_with_both {A B C} (f : A → B → C) (P : A → Prop)
    (Q : B → Prop) (S : C → Prop) (l : list A) (k : list B) :
  Forall P l → Forall Q k →
  (∀ x y, P x → Q y → S (f x y)) →
  Forall S (zip_with f l k).
Proof.
  intros Hl. revert k. induction Hl as [|x l Hx Hl IH]; intros k Hk Hf.
  - constructor.
  - destruct Hk as [|y k Hy Hk]; simpl; constructor; auto.
Qed.

Lemma length_indicator_row u c : length (indicator_row u c) = length u.
Proof. unfold indicator_row. by rewrite length_map. Qed.

Lemma normalize_index_in_range n upper idx :
  (0 ≤ idx < upper)%Z →
  normalize_index n upper idx = Ok (Z.to_nat idx).
Proof.
  intros H. unfold normalize_index.
  rewrite decide_True by lia. by rewrite decide_False by lia.
Qed.

Lemma encode_column_ok dt X d Xt idx :
  rows X ≠ [] →
  (0 ≤ idx < Z.of_nat (ncols X))%Z →
  (idx < Z.of_nat (ncols Xt))%Z →
  nrows Xt = nrows X →
  homogeneous (cell_column X (Z.to_nat idx)) = true →
  ∃ Y, encode_column dt X d Xt idx = Ok Y
       ∧ rows Y
         = zip_with (λ cur orig,
                       splice (Z.to_nat idx)
                         (encoded_cells dt X d (Z.to_nat idx)
                            (nth (Z.to_nat idx) orig (CInt 0))) cur)
             (rows Xt) (rows X)
       ∧ (Z.to_nat idx ≤ ncols Y)%nat
       ∧ (wf Xt → wf Y).
Proof.
  intros Hrows Hidx HidxT Hn Hhom. set (j := Z.to_nat idx) in *.
  set (u := sorted_distinct (cell_column X j)).
  unfold encode_column, getcol, np_delete.
  rewrite !normalize_index_in_range by lia. simpl.
  fold j. fold (cell_column X j). unfold unique. rewrite Hhom. simpl. fold u.
  assert (Hoh : ∃ m, (if d then drop_first_column
                             (np_array (map (indicator_row u) (cell_column X j)))
                      else Ok (np_array (map (indicator_row u) (cell_column X j))))
                     = Ok (I2 m)
                     ∧ rows m
                       = map (λ orig,
                                if d
                                then drop 1 (indicator_row u (nth j orig (CInt 0)))
                                else indicator_row u (nth j orig (CInt 0)))
                           (rows X)
                     ∧ ncols m = (length u - (if d then 1 else 0))%nat).
  { unfold cell_column. destruct (rows X) as [|r0 rs]; [done |]. simpl.
    destruct d; simpl.
    - eexists. split; [done |]. simpl. rewrite length_indicator_row.
      split; [| done]. f_equal. by rewrite !map_map.
    - eexists. split; [done |]. simpl. rewrite length_indicator_row.
      split; [| lia]. f_equal. by rewrite map_map. }
  destruct Hoh as (m & -> & Hm & Hmc). simpl.
  unfold np_insert_T. simpl.
  rewrite normalize_index_in_range by lia. simpl. fold j.
  rewrite decide_True
    by (unfold nrows in *; simpl; rewrite Hm, !length_map; lia).
  eexists. split; [done |]. simpl. split_and!.
  - rewrite Hm, zip_with_fmap_l, zip_with_fmap_r.
    apply zip_with_ext; [| done..]. intros cur orig.
    unfold splice, encoded_cells. fold u. by destruct d.
  - lia.
  - intros Hwf. unfold wf in *. simpl. rewrite Hm.
    rewrite zip_with_fmap_l, zip_with_fmap_r.
    eapply (Forall_zip_with_both _ _ (λ _, True)); [exact Hwf | | ].
    + by apply Forall_true.
    + intros cur orig Hcur _. simpl in *.
      rewrite !length_app, length_take, length_drop, length_map.
      rewrite length_delete
        by (apply lookup_lt_is_Some_2; lia).
      rewrite Hmc, Hcur.
      destruct d; simpl; rewrite ?length_drop, length_indicator_row; lia.
Qed.

Lemma foldl_encode_column dt X d (l : list Z) :
  rows X ≠ [] →
  StronglySorted (λ a b, b < a)%Z l →
  (∀ idx, idx ∈ l →
          (0 ≤ idx < Z.of_nat (ncols X))%Z
          ∧ homogeneous (cell_column X (Z.to_nat idx)) = true) →
  ∀ Xt f (t : Z),
    rows Xt = map f (rows X) →
    (∀ idx, idx ∈ l → idx < t)%Z →
    (t ≤ Z.of_nat (ncols Xt))%Z →
    ∃ Y, foldl (λ acc index,
                  rbind acc (λ X_transformed,
                               encode_column dt X d X_transformed index))
           (Ok Xt) l = Ok Y
         ∧ rows Y
           = map (λ r,
                    foldl (λ cur idx,
                             splice (Z.to_nat idx)
                               (encoded_cells dt X d (Z.to_nat idx)
                                  (nth (Z.to_nat idx) r (CInt 0))) cur)
                      (f r) l)
               (rows X)
         ∧ (wf Xt → wf Y).
Proof.
  intros Hrows Hsorted. induction Hsorted as [|idx l Hsorted IH Hlt];
    intros Hcols Xt f t Hf Ht Hnc; simpl.
  - eauto.
  - rewrite Forall_forall in Hlt.
    destruct (Hcols idx) as [Hidx Hhom]; [by left |].
    destruct (encode_column_ok dt X d Xt idx) as (Y1 & -> & HY1 & Hnc1 & Hwf1);
      try done.
    + assert (idx < t)%Z by (apply Ht; by left). lia.
    + unfold nrows. by rewrite Hf, length_map.
    + rewrite Hf, zip_with_fmap_l, zip_with_diag in HY1.
      assert (Hcols' : ∀ idx', idx' ∈ l →
                (0 ≤ idx' < Z.of_nat (ncols X))%Z
                ∧ homogeneous (cell_column X (Z.to_nat idx')) = true).
      { intros idx' Hin. apply Hcols. by right. }
      destruct (IH Hcols' Y1 _ idx HY1) as (Y & HY & Hrows' & Hwf).
      * intros idx' Hin. by apply Hlt.
      * lia.
      * exists Y. split_and!; [done | done | auto].
Qed.

Lemma sorted_reverse_perm l : sorted_reverse l ≡ₚ l.
Proof. apply merge_sort_Permutation. Qed.

Lemma sorted_reverse_descending l :
  NoDup l → StronglySorted (λ a b, b < a)%Z (sorted_reverse l).
Proof.
  intros Hnd.
  assert (Hs : StronglySorted (flip Z.le) (sorted_reverse l)).
  { apply StronglySorted_merge_sort.
    - intros a b c. unfold flip. lia.
    - intros a b. unfold flip. lia. }
  assert (Hnd' : NoDup (sorted_reverse l)) by (by rewrite sorted_reverse_perm).
  induction Hs as [|a k Hk IH Ha]; [constructor |].
  apply NoDup_cons in Hnd' as [Hnotin Hnd'].
  constructor; [by apply IH |].
  rewrite Forall_forall in Ha |- *. intros b Hb.
  specialize (Ha b Hb). unfold flip in Ha.
  assert (a ≠ b) by (by intros ->). lia.
Qed.

(** The rows of the result, in closed form. *)
Lemma one_hot_encode_rows dt X indices d :
  wf X →
  rows X ≠ [] →
  NoDup indices →
  (∀ idx, idx ∈ indices →
          (0 ≤ idx < Z.of_nat (ncols X))%Z
          ∧ homogeneous (cell_column X (Z.to_nat idx)) = true) →
  ∃ Y, one_hot_encode dt X indices d = Ok Y
       ∧ wf Y
       ∧ rows Y = map (encode_row dt X indices d) (rows X).
Proof.
  intros Hwf Hrows Hnd Hcols. unfold one_hot_encode.
  pose proof (sorted_reverse_descending indices Hnd) as Hsorted.
  pose proof (sorted_reverse_perm indices) as Hperm.
  destruct (foldl_encode_column dt X d (sorted_reverse indices) Hrows Hsorted)
    with (Xt := X) (f := λ r : list cell, r) (t := Z.of_nat (ncols X))
    as (Y & HY & HrowsY & HwfY).
  - intros idx Hin. apply Hcols. by rewrite <- Hperm.
  - by rewrite map_id.
  - intros idx Hin. apply Hcols. by rewrite <- Hperm.
  - lia.
  - exists Y. split_and!; [done | by apply HwfY |].
    rewrite HrowsY. apply map_ext_in. intros r Hr.
    apply list_elem_of_In in Hr.
    unfold wf in Hwf. rewrite Forall_forall in Hwf. specialize (Hwf r Hr).
    pose proof (foldl_splice dt X d r (sorted_reverse indices) Hsorted
                  (ncols X) []) as Hfold.
    rewrite <- Hwf, firstn_all, !app_nil_r in Hfold.
    rewrite Hfold; [| | done].
    + unfold encode_row. apply encode_row_from_ext.
      intros i _. by rewrite Hperm.
    + intros idx Hin. rewrite Hwf. apply Hcols. by rewrite <- Hperm.
Qed.

(** ** One-hot encoding: the indicators *)

Lemma cell_le_total : Total cell_le.
Proof.
  intros [x|s] [y|t]; unfold cell_le; simpl; auto.
  - destruct (Z.leb_spec x y), (Z.leb_spec y x); auto; lia.
  - apply String.leb_total.
Qed.

Lemma sorted_distinct_perm col : sorted_distinct col ≡ₚ remove_dups col.
Proof. apply merge_sort_Permutation. Qed.

Lemma sorted_distinct_NoDup col : NoDup (sorted_distinct col).
Proof. rewrite sorted_distinct_perm. apply NoDup_remove_dups. Qed.

Lemma sorted_distinct_elem_of col v : v ∈ sorted_distinct col ↔ v ∈ col.
Proof. rewrite sorted_distinct_perm. apply elem_of_remove_dups. Qed.

Lemma sorted_distinct_Sorted col : Sorted cell_le (sorted_distinct col).
Proof. apply Sorted_merge_sort, cell_le_total. Qed.

Lemma indicator_row_absent u c :
  c ∉ u → indicator_row u c = replicate (length u) 0%Z.
Proof.
  induction u as [|v u IH]; intros Hc; simpl; [done |].
  apply not_elem_of_cons in Hc as [Hne Hc].
  rewrite decide_False by done. f_equal. by apply IH.
Qed.

Lemma indicator_row_unit u c rank :
  NoDup u → u !! rank = Some c →
  indicator_row u c = unit_vector (length u) rank.
Proof.
  intros Hnd. revert rank.
  induction Hnd as [|v u Hv Hnd IH]; intros [|rank] Hrank;
    simplify_eq/=.
  - rewrite decide_True by done. unfold unit_vector. simpl.
    f_equal. by apply indicator_row_absent.
  - rewrite decide_False.
    + unfold unit_vector in *. simpl. f_equal. by apply IH.
    + intros ->. apply Hv. by eapply list_elem_of_lookup_2.
Qed.



Lemma binary_replicate_0 n : binary (replicate n 0%Z).
Proof. apply Forall_replicate. by left. Qed.

Lemma binary_unit_vector k rank : binary (unit_vector k rank).
Proof.
  unfold unit_vector, binary. apply Forall_insert; [| by right].
  apply binary_replicate_0.
Qed.

Lemma drop_1_unit_vector k rank :
  drop 1 (unit_vector k rank)
  = match rank with
    | O => replicate (k - 1) 0%Z
    | S rank' => unit_vector (k - 1) rank'
    end.
Proof.
  unfold unit_vector. destruct k as [|k]; [by destruct rank |].
  destruct rank; simpl; by rewrite Nat.sub_0_r.
Qed.



Lemma elem_of_cell_column X j row :
  row ∈ rows X → nth j row (CInt 0) ∈ cell_column X j.
Proof.
  intros Hrow. unfold cell_column.
  apply (list_elem_of_fmap_2 (λ r, nth j r (CInt 0))). exact Hrow.
Qed.

Lemma category_rank X j row :
  row ∈ rows X →
  ∃ rank, sorted_distinct (cell_column X j) !! rank
          = Some (nth j row (CInt 0))
          ∧ (rank < length (sorted_distinct (cell_column X j)))%nat
          ∧ indicator_row (sorted_distinct (cell_column X j))
              (nth j row (CInt 0))
            = unit_vector (length (sorted_distinct (cell_column X j))) rank.
Proof.
  intros Hrow.
  pose proof (elem_of_cell_column X j row Hrow) as Hin.
  apply sorted_distinct_elem_of, list_elem_of_lookup_1 in Hin as [rank Hrank].
  exists rank. split_and!; [done | by eapply lookup_lt_Some |].
  apply indicator_row_unit; [apply sorted_distinct_NoDup | done].
Qed.


Lemma substring_0_one_char n c :
  String.substring 0 (S n) (String c EmptyString) = String c EmptyString.
Proof. simpl. by destruct n. Qed.

(** An indicator in an array of strings is the string "1" or "0"; in an
    array of integers or of objects it is the number. *)
Lemma astype_indicator dt z :
  z = 0%Z ∨ z = 1%Z →
  astype dt z
  = match dt with
    | unicode _ => CStr (if decide (z = 0%Z) then "0" else "1")
    | _ => CInt z
    end.
Proof.
  intros Hz. destruct dt as [|width|]; simpl; [done | | done].
  destruct (Pos.to_nat width) as [|n] eqn:Hw; [lia |].
  destruct Hz as [-> | ->].
  - change (pretty 0%Z) with "0". by rewrite substring_0_one_char.
  - replace (pretty 1%Z) with "1" by (by vm_compute).
    by rewrite substring_0_one_char.
Qed.


(** C2, corrected: for a data array with at least one row and distinct
    indices, counted from the front, of columns whose values can be
    compared, [one_hot_encode] goes through the indices in descending
    order; for each it takes the sorted distinct values of that column of
    X, and puts in the place of the column, row by row, the indicators
    that have a 1 at the rank of the row's value and 0 elsewhere, without
    the first indicator when [drop_first] is set.  The indicators are
    stored as elements of the array: the strings "1" and "0" in an array
    of strings, the numbers otherwise.  On the array of strings
    [["a"],["b"],["a"]] with indices [0] and no dropping the result is
    [["1","0"],["0","1"],["1","0"]]; on the same cells held as objects it
    is [[1,0],[0,1],[1,0]]. *)
Theorem one_hot_encode_spec (dt : dtype) (X : array2 cell)
    (indices : list Z) (drop_first : bool) :
  encodable X indices →
  (one_hot_encode dt X indices drop_first
   = foldl (λ acc index,
              rbind acc (λ X_transformed,
                           encode_column dt X drop_first X_transformed index))
       (Ok X) (sorted_reverse indices)
   ∧ StronglySorted (λ a b, b < a)%Z (sorted_reverse indices)
   ∧ sorted_reverse indices ≡ₚ indices)
  ∧ (∃ Y, one_hot_encode dt X indices drop_first = Ok Y
          ∧ wf Y
          ∧ rows Y = map (encode_row dt X indices drop_first) (rows X))
  ∧ (∀ idx, idx ∈ indices →
       let j := Z.to_nat idx in
       let u := sorted_distinct (cell_column X j) in
       Sorted cell_le u
       ∧ NoDup u
       ∧ (∀ v, v ∈ u ↔ v ∈ cell_column X j)
       ∧ ∀ row, row ∈ rows X →
           ∃ rank, u !! rank = Some (nth j row (CInt 0))
                   ∧ indicator_row u (nth j row (CInt 0))
                     = unit_vector (length u) rank
                   ∧ encoded_cells dt X drop_first j (nth j row (CInt 0))
                     = map (λ z : Z,
                              match dt with
                              | unicode _ =>
                                  CStr (if decide (z = 0%Z) then "0" else "1")
                              | _ => CInt z
                              end)
                         (if drop_first
                          then drop 1 (unit_vector (length u) rank)
                          else unit_vector (length u) rank))
  ∧ one_hot_encode (unicode 1) example_cells [0%Z] false
    = Ok (Array2 2 [[CStr "1"; CStr "0"]; [CStr "0"; CStr "1"];
                    [CStr "1"; CStr "0"]])
  ∧ one_hot_encode object example_cells [0%Z] false
    = Ok (Array2 2 [[CInt 1; CInt 0]; [CInt 0; CInt 1]; [CInt 1; CInt 0]]).
Proof.
  intros (Hwf & Hrows & Hnd & Hcols). split_and!.
  - reflexivity.
  - by apply sorted_reverse_descending.
  - apply sorted_reverse_perm.
  - by apply one_hot_encode_rows.
  - intros idx Hidx j u. split_and!.
    + apply sorted_distinct_Sorted.
    + apply sorted_distinct_NoDup.
    + apply sorted_distinct_elem_of.
    + intros row Hrow.
      destruct (category_rank X j row Hrow) as (rank & Hrank & _ & Hunit).
      subst u. exists rank. split_and!; [done | done |].
      unfold encoded_cells. rewrite Hunit.
      apply map_ext_in. intros z Hz. apply astype_indicator.
      pose proof (binary_unit_vector
                    (length (sorted_distinct (cell_column X j))) rank)
        as Hbin.
      unfold binary in Hbin. rewrite Forall_forall in Hbin. apply Hbin.
      apply list_elem_of_In in Hz. destruct drop_first; [| done].
      by apply (subseteq_drop 1).
  - vm_compute. reflexivity.
  - vm_compute. reflexivity.
Qed.

(** The worked example of the claim runs on the array that [np.array]
    makes of [["a"],["b"],["a"]], an array of strings: the result holds
    the strings "1" and "0", not the numbers.  And an index counted from
    the end does not get its indicators in the place of its column: the
    index -1 and the index 1 of a two-column array name the same column
    and give different results. *)
Lemma one_hot_encode_spec_counterexample :
  one_hot_encode (unicode 1) example_cells [0%Z] false
  ≠ Ok (Array2 2 [[CInt 1; CInt 0]; [CInt 0; CInt 1]; [CInt 1; CInt 0]])
  ∧ let X := Array2 2 [[CStr "x"; CStr "a"]; [CStr "y"; CStr "b"]] in
    one_hot_encode (unicode 1) X [(-1)%Z] false
    = Ok (Array2 3 [[CStr "1"; CStr "0"; CStr "x"];
                    [CStr "0"; CStr "1"; CStr "y"]])
    ∧ one_hot_encode (unicode 1) X [1%Z] false
      = Ok (Array2 3 [[CStr "x"; CStr "1"; CStr "0"];
                      [CStr "y"; CStr "0"; CStr "1"]])
    ∧ one_hot_encode (unicode 1) X [(-1)%Z] false
      ≠ Ok (Array2 3 (map (encode_row (unicode 1) X [1%Z] false) (rows X))).
Proof.
  split; [| split_and!].
  - vm_compute. discriminate.
  - vm_compute. reflexivity.
  - vm_compute. reflexivity.
  - vm_compute. discriminate.
Qed.

Lemma example_cells_encodable : encodable example_cells [0%Z].
Proof.
  unfold encodable, example_cells, wf. simpl. split_and!.
  - repeat constructor.
  - done.
  - apply NoDup_singleton.
  - intros idx ->%list_elem_of_singleton. split; [lia | reflexivity].
Qed.

Lemma one_hot_encode_spec_witness :
  ∃ Y, one_hot_encode (unicode 1) example_cells [0%Z] true = Ok Y
       ∧ wf Y
       ∧ rows Y = map (encode_row (unicode 1) example_cells [0%Z] true)
                    (rows example_cells).
Proof.
  destruct (one_hot_encode_spec (unicode 1) example_cells [0%Z] true
              example_cells_encodable) as (_ & H & _).
  exact H.
Defined.



(** ** The embedding on inputs outside the theorems *)

(** An index past the last column is refused. *)
Example one_hot_encode_out_of_range :
  one_hot_encode (unicode 1) example_cells [1%Z] false = Raise IndexError.
Proof. vm_compute. reflexivity. Qed.

(** A column of integers and text, in an array of objects, cannot be
    sorted. *)
Example one_hot_encode_mixed_column :
  one_hot_encode object (Array2 1 [[CInt 1]; [CStr "a"]]) [0%Z] false
  = Raise TypeError.
Proof. vm_compute. reflexivity. Qed.

(** With no row there is no second axis to drop the first indicator from. *)
Example one_hot_encode_no_rows :
  one_hot_encode int64 (Array2 1 []) [0%Z] true = Raise IndexError.
Proof. vm_compute. reflexivity. Qed.

(** Metrics of empty sequences divide by the integer zero. *)
Example evaluate_regression_empty :
  evaluate_regression [] [] = Raise ZeroDivisionError.
Proof. reflexivity. Qed.

(** Data and targets of different lengths do not fit together. *)
Example fit_shape_mismatch :
  fst (fit pinv_2x2 (λ _, 0) example_X [2; 4] "least_squares" 0.01 1000
         (World init [] 0))
  = Raise shape_error.
Proof. reflexivity. Qed.

(** * Further properties *)

(** ** [evaluate_regression] *)

Lemma broadcast_ok_iff f (u v : list R) :
  (∃ r, broadcast f u v = Ok r) ↔ broadcastable u v.
Proof.
  unfold broadcast, broadcastable. case_decide as Hlen.
  - split; eauto.
  - destruct u as [|a [|a' u]], v as [|b [|b' v]]; simpl in *;
      try done; (split; [intros [r Hr] | intros Hbc]);
      first [ by eauto
            | done
            | by (destruct Hbc as [? | [? | ?]]; simplify_eq/=) ].
Qed.

Lemma broadcast_not_ok f (u v : list R) :
  ¬ broadcastable u v → broadcast f u v = Raise broadcast_error.
Proof.
  intros Hno. destruct (broadcast f u v) as [r|e] eqn:Hb.
  - destruct Hno. apply (broadcast_ok_iff f). eauto.
  - by apply broadcast_raises in Hb as ->.
Qed.

Lemma evaluate_regression_cases (y_true y_pred : list R) :
  match evaluate_regression y_true y_pred with
  | Ok d => broadcastable y_true y_pred ∧ y_pred ≠ []
  | Raise e =>
      (e = broadcast_error ∧ ¬ broadcastable y_true y_pred)
      ∨ (e = ZeroDivisionError ∧ broadcastable y_true y_pred ∧ y_pred = [])
  end.
Proof.
  unfold evaluate_regression.
  destruct (broadcast Rminus y_true y_pred) as [res|e] eqn:Hb; simpl.
  - assert (Hbc : broadcastable y_true y_pred)
      by (apply (broadcast_ok_iff Rminus); eauto).
    unfold float_div_int. case_decide as HN; simpl.
    + right. split_and!; [done | done | by destruct y_pred].
    + split; [done |]. by intros ->.
  - left. split; [by eapply broadcast_raises |].
    intros [r Hr]%(broadcast_ok_iff Rminus). congruence.
Qed.

(** [evaluate_regression] raises in exactly two ways: the operands of
    [y_true - y_pred] do not broadcast, or they do and [y_pred] is empty,
    so that [1 / N] divides by zero.  Otherwise it returns. *)
Theorem evaluate_regression_outcome (y_true y_pred : list R) :
  ((∃ d, evaluate_regression y_true y_pred = Ok d)
   ↔ broadcastable y_true y_pred ∧ y_pred ≠ [])
  ∧ (evaluate_regression y_true y_pred = Raise broadcast_error
     ↔ ¬ broadcastable y_true y_pred)
  ∧ (evaluate_regression y_true y_pred = Raise ZeroDivisionError
     ↔ broadcastable y_true y_pred ∧ y_pred = [])
  ∧ (∀ e, evaluate_regression y_true y_pred = Raise e →
          e = broadcast_error ∨ e = ZeroDivisionError).
Proof.
  pose proof (evaluate_regression_cases y_true y_pred) as Hcases.
  destruct (evaluate_regression y_true y_pred) as [d|e].
  - destruct Hcases as [Hbc Hne]. split_and!.
    + split; [done | eauto].
    + split; [done | by intros Hno].
    + split; [done | by intros [_ Hnil]].
    + done.
  - destruct Hcases as [[-> Hno] | (-> & Hbc & Hnil)]; split_and!.
    + split; [by intros [d Hd] | by intros [Hbc _]].
    + done.
    + split; [done | by intros [Hbc _]].
    + intros e [= <-]. by left.
    + split; [by intros [d Hd] | by intros [_ Hne]].
    + split; [done | by intros Hno].
    + done.
    + intros e [= <-]. by right.
Qed.

Lemma evaluate_regression_inv y_true y_pred d :
  evaluate_regression y_true y_pred = Ok d →
  ∃ res, broadcast Rminus y_true y_pred = Ok res
         ∧ y_pred ≠ []
         ∧ d !! "R2" = Some (1 - sum (map square res) / TSS y_true)
         ∧ d !! "RMSE"
           = Some (sqrt (1 / INR (length y_pred) * sum (map square res)))
         ∧ d !! "MAE" = Some (1 / INR (length y_pred) * sum (map Rabs res)).
Proof.
  unfold evaluate_regression.
  destruct (broadcast Rminus y_true y_pred) as [res|e]; simpl; [| done].
  unfold float_div_int. case_decide as HN; simpl; [done |].
  intros [= <-]. exists res. split_and!; try done.
  by intros ->.
Qed.

Lemma sum_nonneg (v : list R) : Forall (λ x, 0 <= x) v → 0 <= sum v.
Proof.
  induction 1 as [|x v Hx _ IH]; simpl; lra.
Qed.

Lemma sum_squares_nonneg {A} (f : A → R) (l : list A) :
  0 <= sum (map (λ a, square (f a)) l).
Proof.
  apply sum_nonneg, Forall_map, Forall_true. intros a. simpl.
  unfold square. nra.
Qed.



Lemma inv_length_nonneg {A} (l : list A) : 0 <= 1 / INR (length l).
Proof.
  destruct l as [|a l]; simpl length.
  - simpl. unfold Rdiv. rewrite Rinv_0. lra.
  - apply Rlt_le, Rdiv_lt_0_compat; [lra |]. apply lt_0_INR. lia.
Qed.






(** ** [predict] *)

(** On a fitted model [predict] never raises the not-fitted error; it
    returns one prediction per row of a two-dimensional input whose column
    count is the number of coefficients and raises a shape error for any
    other column count; on a flat input it returns when the input
    broadcasts against the coefficients and raises otherwise. *)
Theorem predict_shapes (w : world) (c : list R) (b : R) :
  coefficients (self w) = Some c →
  intercept (self w) = Some b →
  (∀ m, (ncols m = length c →
         ∃ r, fst (predict (A2 m) w) = Ok r ∧ length r = nrows m)
        ∧ (ncols m ≠ length c →
           fst (predict (A2 m) w) = Raise shape_error))
  ∧ (∀ x, (broadcastable x c → ∃ r, fst (predict (A1 x) w) = Ok r)
          ∧ (¬ broadcastable x c →
             fst (predict (A1 x) w) = Raise broadcast_error)).
Proof.
  intros Hc Hb. split.
  - intros m. rewrite (predict_fitted _ _ _ _ Hc Hb). simpl. split.
    + intros Hm. rewrite dot_aligned by done. simpl.
      eexists. split; [done |]. unfold nrows. by rewrite !length_map.
    + intros Hm. unfold dot. by rewrite decide_False.
  - intros x. rewrite (predict_fitted _ _ _ _ Hc Hb). simpl. split.
    + intros [r ->]%(broadcast_ok_iff Rmult). simpl. eauto.
    + intros Hno. by rewrite broadcast_not_ok.
Qed.

Lemma predict_shapes_witness :
  let w := World (Build (Some [2; 3]) (Some 1) None None) [] 0 in
  fst (predict (A2 (Array2 1 [[5]])) w) = Raise shape_error.
Proof.
  intros w.
  destruct (predict_shapes w [2; 3] 1 eq_refl eq_refl) as [H _].
  apply (H (Array2 1 [[5]])). simpl. lia.
Defined.

(** A flat input is multiplied with the coefficients elementwise, by
    NumPy's broadcasting: a flat input as long as the coefficient vector
    gives x[i] * coefficients[i] + intercept (not their sum), and a single
    value gives one number per coefficient. *)
Theorem predict_flat_broadcast (w : world) (c : list R) (b : R) :
  coefficients (self w) = Some c →
  intercept (self w) = Some b →
  (∀ x, length x = length c →
        fst (predict (A1 x) w)
        = Ok (zip_with (λ xi ci, xi * ci + b) x c))
  ∧ (∀ x0, fst (predict (A1 [x0]) w) = Ok (map (λ ci, x0 * ci + b) c)).
Proof.
  intros Hc Hb. split.
  - intros x Hlen. rewrite (predict_fitted _ _ _ _ Hc Hb). simpl.
    rewrite broadcast_same_length by done. simpl. f_equal.
    clear Hc. revert c Hlen.
    induction x as [|xi x IH]; intros [|ci c] Hlen; simplify_eq/=;
      [done |]. f_equal. by apply IH.
  - intros x0. rewrite (predict_fitted _ _ _ _ Hc Hb). simpl.
    unfold broadcast. case_decide as Hlen.
    + destruct c as [|c0 [|c1 c]]; simplify_eq/=. done.
    + destruct c as [|c0 [|c1 c]]; simpl in *; try done.
      by rewrite map_map.
Qed.

Lemma predict_flat_broadcast_witness :
  let w := World (Build (Some [2; 3]) (Some 1) None None) [] 0 in
  fst (predict (A1 [10; 20]) w)
  = Ok (zip_with (λ xi ci, xi * ci + 1) [10; 20] [2; 3]).
Proof.
  intros w.
  destruct (predict_flat_broadcast w [2; 3] 1 eq_refl eq_refl) as [H _].
  exact (H [10; 20] eq_refl).
Defined.

Lemma inner_cons a u b v : inner (a :: u) (b :: v) = a * b + inner u v.
Proof. reflexivity. Qed.

(** The predictions are the product of the bias-augmented input with the
    weight vector (intercept first); a flat input with one coefficient
    predicts as the same values arranged in a single column. *)
Theorem predict_bias_augmented (w : world) (c : list R) (b : R) :
  coefficients (self w) = Some c →
  intercept (self w) = Some b →
  (∀ m, ncols m = length c →
        fst (predict (A2 m) w) = dot (with_bias m) (b :: c))
  ∧ (∀ x, length c = 1%nat →
          fst (predict (A1 x) w) = fst (predict (A2 (reshape_column x)) w)).
Proof.
  intros Hc Hb. split.
  - intros m Hm. rewrite (predict_fitted _ _ _ _ Hc Hb). simpl.
    rewrite !dot_aligned by (simpl; lia). simpl. f_equal.
    rewrite !map_map. apply map_ext. intros r.
    rewrite inner_cons. lra.
  - intros x Hlen. destruct c as [|coef [|? ?]]; simplify_eq/=.
    rewrite !(predict_fitted _ _ _ _ Hc Hb). cbn [fst].
    rewrite broadcast_singleton, dot_aligned by done. simpl. f_equal.
    rewrite !map_map. apply map_ext. intros v.
    unfold inner. simpl. lra.
Qed.

Lemma predict_bias_augmented_witness :
  let w := World (Build (Some [2; 3]) (Some 1) None None) [] 0 in
  fst (predict (A2 (Array2 2 [[5; 6]])) w)
  = dot (with_bias (Array2 2 [[5; 6]])) [1; 2; 3].
Proof.
  intros w.
  destruct (predict_bias_augmented w [2; 3] 1 eq_refl eq_refl) as [H _].
  exact (H (Array2 2 [[5; 6]]) eq_refl).
Defined.

(** ** [fit] with "least_squares" *)

(** A closed-form fit that raises leaves the model, the output and the
    random generator exactly as they were; one that returns has changed
    the intercept and the coefficients only: a training history left by an
    earlier gradient descent is still there. *)
Theorem fit_least_squares_frame pinv tape (X : ndarray) (y : list R)
    (lr : R) (iterations : Z) (w : world) :
  let r := fit pinv tape X y "least_squares" lr iterations w in
  match fst r with
  | Ok _ =>
      loss_values (self (snd r)) = loss_values (self w)
      ∧ param_history (self (snd r)) = param_history (self w)
      ∧ stdout (snd r) = stdout w
      ∧ drawn (snd r) = drawn w
  | Raise _ => snd r = w
  end.
Proof.
  simpl. rewrite fit_least_squares_run, fit_multiple_run.
  by destruct (normal_equation _ _ _) as [[|w0 c]|e].
Qed.

Lemma normal_equation_mismatch pinv X y :
  pinv_shape pinv → nrows X ≠ length y →
  normal_equation pinv X y = Raise shape_error.
Proof.
  intros Hpinv Hn. unfold normal_equation.
  assert (∃ g, matmul (transpose X) X = Ok g) as [g Hg].
  { unfold matmul. rewrite decide_True by done. eauto. }
  rewrite Hg. simpl.
  assert (∃ h, matmul (pinv g) (transpose X) = Ok h) as [h Hh].
  { unfold matmul. rewrite decide_True; [eauto |].
    destruct (Hpinv g) as [_ ->]. apply nrows_matmul in Hg.
    by rewrite Hg. }
  rewrite Hh. simpl. unfold dot. rewrite decide_False; [done |].
  apply ncols_matmul in Hh. rewrite Hh. simpl. done.
Qed.

(** With a [pinv] of the right shape, the closed-form fit returns exactly
    when [y] has one entry per row of [X]; otherwise it raises the shape
    error of the last product. *)
Theorem fit_least_squares_shapes pinv tape (X : ndarray) (y : list R)
    (lr : R) (iterations : Z) (w : world) :
  pinv_shape pinv →
  let r := fit pinv tape X y "least_squares" lr iterations w in
  (fst r = Ok tt ↔ nrows (as_matrix X) = length y)
  ∧ (nrows (as_matrix X) ≠ length y → fst r = Raise shape_error).
Proof.
  intros Hpinv. simpl. rewrite fit_least_squares_run, fit_multiple_run.
  destruct (decide (nrows (as_matrix X) = length y)) as [Hn | Hn].
  - destruct (normal_equation_ok pinv (with_bias (as_matrix X)) y Hpinv)
      as (wv & -> & Hlen); [by rewrite nrows_with_bias |].
    destruct wv as [|w0 c]; [done |]. done.
  - rewrite normal_equation_mismatch;
      [| done | by rewrite nrows_with_bias].
    split; [| done]. split; [done | intros; done].
Qed.

Lemma fit_least_squares_shapes_witness :
  fst (fit pinv_2x2 (λ _, 0) example_X [2; 4] "least_squares" 0.01 1000
         (World init [] 0))
  = Raise shape_error.
Proof.
  apply (fit_least_squares_shapes pinv_2x2 (λ _, 0) example_X [2; 4]);
    [apply pinv_shape_2x2 | unfold nrows, example_X; simpl; lia].
Defined.

Lemma inner_nil_r (r : list R) : inner r [] = 0.
Proof. unfold inner. by destruct r. Qed.

(** With a [pinv] of the right shape, the closed-form fit of data without
    any sample returns, with intercept 0 and every coefficient 0. *)
Theorem fit_least_squares_no_samples pinv tape (X : ndarray) (lr : R)
    (iterations : Z) (w : world) :
  pinv_shape pinv →
  rows (as_matrix X) = [] →
  let r := fit pinv tape X [] "least_squares" lr iterations w in
  fst r = Ok tt
  ∧ intercept (self (snd r)) = Some 0
  ∧ coefficients (self (snd r)) = Some (replicate (feature_count X) 0).
Proof.
  intros Hpinv Hrows. simpl.
  rewrite fit_least_squares_run, fit_multiple_run.
  destruct (normal_equation_ok pinv (with_bias (as_matrix X)) [] Hpinv)
    as (wv & Hwv & Hlen).
  { unfold nrows. simpl. by rewrite Hrows. }
  rewrite Hwv.
  assert (Hzero : wv = replicate (length wv) 0).
  { clear Hlen. unfold normal_equation in Hwv.
    destruct (matmul _ _) as [g|]; simpl in Hwv; [| done].
    destruct (matmul (pinv g) _) as [h|]; simpl in Hwv; [| done].
    unfold dot in Hwv. case_decide; [| done]. injection Hwv as <-.
    rewrite length_map.
    induction (rows h) as [|r l IH]; cbn [map length replicate]; [done |].
    f_equal; [apply inner_nil_r | exact IH]. }
  simpl in Hlen. rewrite feature_count_as_matrix in Hlen.
  rewrite Hlen in Hzero. rewrite Hzero. done.
Qed.

Lemma fit_least_squares_no_samples_witness :
  let r := fit pinv_2x2 (λ _, 0) (A2 (Array2 1 [])) [] "least_squares" 0.01
             1000 (World init [] 0) in
  fst r = Ok tt
  ∧ intercept (self (snd r)) = Some 0
  ∧ coefficients (self (snd r)) = Some (replicate 1 0).
Proof.
  apply (fit_least_squares_no_samples pinv_2x2 (λ _, 0) (A2 (Array2 1 [])));
    [apply pinv_shape_2x2 | done].
Defined.

(** ** [fit_gradient_descent]: the whole state *)

Lemma sum_squares_swap (u v : list R) :
  sum (map square (zip_with Rminus u v))
  = sum (map square (zip_with Rminus v u)).
Proof.
  revert v. induction u as [|a u IH]; intros [|b v]; simpl; try done.
  rewrite IH. unfold square. lra.
Qed.

(** Over the reals, the square of the RMSE of an epoch is the mean of its
    squared errors. *)
Lemma printed_mse X y b c d rmse :
  nrows X = length y →
  evaluate_regression y (predictions X b c) = Ok d →
  getitem d "RMSE" = Ok rmse →
  rmse ^ 2 = mse X y b c.
Proof.
  intros Hn (res & Hres & _ & _ & Hrmse & _)%evaluate_regression_inv Hget.
  unfold getitem in Hget. rewrite Hrmse in Hget. injection Hget as <-.
  rewrite broadcast_same_length in Hres by (by rewrite length_predictions).
  injection Hres as <-.
  rewrite pow2_sqrt.
  - unfold mse, mean, errors.
    rewrite sum_squares_swap, length_map, length_zip_with,
      !length_predictions.
    replace (nrows X `min` length y)%nat with (nrows X) by lia.
    unfold Rdiv. lra.
  - apply Rmult_le_pos; [apply inv_length_nonneg |].
    apply (sum_squares_nonneg (λ e : R, e)).
Qed.

Lemma wp_epoch_world X y α epoch w b c :
  nrows X = length y →
  y ≠ [] →
  ncols X = S (length c) →
  coefficients (self w) = Some c →
  intercept (self w) = Some b →
  wp (gradient_descent_epoch X y α (length y) epoch)
    (λ _ w',
       w' = World
              (Build (Some (gd_update X y α (b, c)).2)
                 (Some (gd_update X y α (b, c)).1)
                 ((λ l, l ++ [mse X y b c]) <$> loss_values (self w))
                 ((λ h, h ++ [b :: c]) <$> param_history (self w)))
              (stdout w ++ log_line epoch (mse X y b c))
              (drawn w))
    (λ _ _, False) w.
Proof.
  intros Hn Hy Hp Hc Hb. unfold gradient_descent_epoch.
  apply wp_bind, run_wp.
  rewrite (predict_non_bias_columns X w c b Hc Hb Hp). simpl.
  apply wp_bind, wp_lift.
  rewrite broadcast_same_length by (by rewrite length_predictions).
  fold (errors X y b c).
  apply wp_bind, wp_set_self.
  unfold get_intercept, get_coefficients.
  apply wp_bind, wp_bind, wp_get_self. simpl. rewrite ?Hb. apply wp_ret.
  apply wp_bind, wp_bind, wp_get_self. simpl. rewrite ?Hc. apply wp_ret.
  apply wp_bind, wp_set_self.
  apply wp_bind, wp_lift.
  unfold float_div_int. rewrite decide_False by (by destruct y).
  apply wp_bind, wp_lift. rewrite dot_transpose by done.
  rewrite scaled_dot_transpose by done.
  apply wp_bind, wp_lift.
  rewrite item0_nth
    by (intros Hg; apply (f_equal length) in Hg;
        rewrite length_gradient in Hg; simpl in Hg; lia).
  apply wp_bind, wp_bind, wp_get_self. simpl. rewrite ?Hb. apply wp_ret.
  apply wp_bind, wp_set_self.
  apply wp_bind, wp_bind, wp_get_self. simpl. rewrite ?Hc. apply wp_ret.
  apply wp_bind, wp_lift. unfold broadcast_inplace.
  rewrite decide_True
    by (unfold from_1; rewrite length_drop, length_gradient; lia).
  apply wp_bind, wp_set_self. unfold log_line.
  case_decide.
  - destruct (evaluate_regression_ok y (predictions X b c))
      as (d & rmse & Hd & Hr).
    { by rewrite length_predictions. }
    { intros Hnil. apply (f_equal length) in Hnil.
      rewrite length_predictions, Hn in Hnil. by destruct y. }
    apply wp_bind, wp_lift. rewrite Hd.
    apply wp_bind, wp_lift. rewrite Hr.
    apply wp_print. change (rmse * (rmse * 1)) with (rmse ^ 2).
    by rewrite (printed_mse X y b c d rmse Hn Hd Hr).
  - apply wp_ret. by rewrite app_nil_r.
Qed.

Lemma gd_log_S X y α bc0 n :
  gd_log X y α bc0 (S n)
  = gd_log X y α bc0 n
    ++ log_line (Z.of_nat n) (mse X y (gd_params X y α bc0 n).1
                                (gd_params X y α bc0 n).2).
Proof.
  unfold gd_log. rewrite seq_S, flat_map_app. simpl. by rewrite app_nil_r.
Qed.

Lemma wp_gradient_descent_loop_world X y α n w bc0 :
  nrows X = length y →
  y ≠ [] →
  ncols X = S (length bc0.2) →
  self w = Build (Some bc0.2) (Some bc0.1) (Some []) (Some []) →
  wp (for_range 0 n (gradient_descent_epoch X y α (length y)))
    (λ _ w',
       w' = World
              (Build (Some (gd_params X y α bc0 n).2)
                 (Some (gd_params X y α bc0 n).1)
                 (Some (map (λ t, mse X y (gd_params X y α bc0 t).1
                                    (gd_params X y α bc0 t).2) (seq 0 n)))
                 (Some (map (λ t, (gd_params X y α bc0 t).1
                                  :: (gd_params X y α bc0 t).2) (seq 0 n))))
              (stdout w ++ gd_log X y α bc0 n)
              (drawn w))
    (λ _ _, False) w.
Proof.
  intros Hn Hy Hp Hw.
  apply (wp_for_range_indexed
    (λ k w',
       w' = World
              (Build (Some (gd_params X y α bc0 k).2)
                 (Some (gd_params X y α bc0 k).1)
                 (Some (map (λ t, mse X y (gd_params X y α bc0 t).1
                                    (gd_params X y α bc0 t).2) (seq 0 k)))
                 (Some (map (λ t, (gd_params X y α bc0 t).1
                                  :: (gd_params X y α bc0 t).2) (seq 0 k))))
              (stdout w ++ gd_log X y α bc0 k)
              (drawn w))).
  - destruct w as [s out n0]. simpl in *. subst s.
    unfold gd_log. simpl. by rewrite app_nil_r.
  - intros k w' Hk ->.
    eapply wp_mono with (E := λ _ _, False); [| | done].
    + apply (wp_epoch_world X y α _ _ (gd_params X y α bc0 k).1
               (gd_params X y α bc0 k).2); try done.
      by rewrite length_gd_params.
    + intros _ w'' ->.
      rewrite !seq_S, !map_app, gd_params_S, gd_log_S, Z.add_0_l.
      rewrite Nat.add_0_l.
      destruct (gd_params X y α bc0 k) as [bk ck] eqn:Hbc.
      simpl. by rewrite Hbc, <- app_assoc.
  - done.
Qed.

Lemma fit_gradient_descent_run tape X y α T w :
  nrows X = length y →
  y ≠ [] →
  (0 < ncols X)%nat →
  let bc0 := gd_initial tape (drawn w) (ncols X - 1) in
  let n := Z.to_nat T in
  fit_gradient_descent tape X y α T w
  = (Ok tt,
     World
       (Build (Some (gd_params X y α bc0 n).2)
          (Some (gd_params X y α bc0 n).1)
          (Some (map (λ t, mse X y (gd_params X y α bc0 t).1
                             (gd_params X y α bc0 t).2) (seq 0 n)))
          (Some (map (λ t, (gd_params X y α bc0 t).1
                           :: (gd_params X y α bc0 t).2) (seq 0 n))))
       (stdout w ++ gd_log X y α bc0 n)
       (drawn w + ncols X)).
Proof.
  intros Hn Hy Hp bc0 n.
  assert (Hlen0 : ncols X = S (length bc0.2)).
  { unfold bc0, gd_initial. simpl. rewrite !length_map, length_seq. lia. }
  assert (Hwp : wp (fit_gradient_descent tape X y α T)
    (λ _ w',
       w' = World
              (Build (Some (gd_params X y α bc0 n).2)
                 (Some (gd_params X y α bc0 n).1)
                 (Some (map (λ t, mse X y (gd_params X y α bc0 t).1
                                    (gd_params X y α bc0 t).2) (seq 0 n)))
                 (Some (map (λ t, (gd_params X y α bc0 t).1
                                  :: (gd_params X y α bc0 t).2) (seq 0 n))))
              (stdout w ++ gd_log X y α bc0 n)
              (drawn w + ncols X))
    (λ _ _, False) w).
  { unfold fit_gradient_descent.
    apply wp_bind. unfold random_rand_n. rewrite decide_False by lia.
    apply run_wp. simpl. apply wp_bind, wp_set_self.
    apply wp_bind, run_wp. simpl.
    apply wp_bind, wp_set_self. apply wp_bind, wp_set_self.
    apply wp_bind, wp_set_self. simpl.
    eapply wp_mono with (E := λ _ _, False); [| | done].
    - apply (wp_gradient_descent_loop_world X y α n _ bc0 Hn Hy Hlen0).
      simpl. unfold bc0, gd_initial. simpl.
      by replace (Z.to_nat (Z.of_nat (ncols X) - 1)) with (ncols X - 1)%nat
        by lia.
    - intros _ w' ->. simpl. f_equal. lia. }
  apply wp_run in Hwp.
  destruct (fit_gradient_descent tape X y α T w) as [[[]|e] w']; simpl in *;
    [by subst | done].
Qed.

Lemma elem_of_log_line t v epoch m :
  (t, v) ∈ log_line epoch m ↔ (epoch mod 100000 = 0)%Z ∧ t = epoch ∧ v = m.
Proof.
  unfold log_line. case_decide as Hmod.
  - rewrite list_elem_of_singleton. split.
    + by intros [= -> ->].
    + by intros (_ & -> & ->).
  - rewrite elem_of_nil. split; [done | by intros (? & _)].
Qed.

Lemma elem_of_gd_log X y α bc0 n t v :
  (t, v) ∈ gd_log X y α bc0 n
  ↔ (0 ≤ t < Z.of_nat n)%Z ∧ (t mod 100000 = 0)%Z
    ∧ v = mse X y (gd_params X y α bc0 (Z.to_nat t)).1
            (gd_params X y α bc0 (Z.to_nat t)).2.
Proof.
  unfold gd_log. rewrite list_elem_of_In, in_flat_map. split.
  - intros (k & Hk%in_seq & Hin%list_elem_of_In).
    apply elem_of_log_line in Hin as (Hmod & -> & ->).
    rewrite Nat2Z.id. split; [lia |]. split; done.
  - intros (Ht & Hmod & ->). exists (Z.to_nat t). split.
    + apply in_seq. lia.
    + apply list_elem_of_In, elem_of_log_line.
      rewrite Z2Nat.id by lia. done.
Qed.

(** Gradient descent on well-shaped data prints one line for every epoch
    that is a multiple of 100000, in order; the value printed for an epoch
    is the square of the RMSE that [evaluate_regression] gives for [y] and
    the predictions of the parameters the epoch starts from; it takes one
    random draw per column of the bias-augmented X. *)
Theorem fit_gradient_descent_prints tape (X : array2 R) (y : list R)
    (α : R) (T : Z) (w : world) :
  nrows X = length y →
  y ≠ [] →
  (0 < ncols X)%nat →
  let r := fit_gradient_descent tape X y α T w in
  let bc0 := gd_initial tape (drawn w) (ncols X - 1) in
  ∃ printed,
    stdout (snd r) = stdout w ++ printed
    ∧ StronglySorted (λ a b, a.1 < b.1)%Z printed
    ∧ (∀ t v, (t, v) ∈ printed
              ↔ (0 ≤ t < T)%Z ∧ (t mod 100000 = 0)%Z
                ∧ ∃ d rmse,
                    evaluate_regression y
                      (predictions X (gd_params X y α bc0 (Z.to_nat t)).1
                         (gd_params X y α bc0 (Z.to_nat t)).2)
                    = Ok d
                    ∧ d !! "RMSE" = Some rmse
                    ∧ v = rmse ^ 2)
    ∧ drawn (snd r) = (drawn w + ncols X)%nat.
Proof.
  intros Hn Hy Hp r bc0. subst r.
  rewrite (fit_gradient_descent_run tape X y α T w Hn Hy Hp). simpl stdout.
  simpl drawn. fold bc0.
  eexists. split_and!; [done | | | done].
  - generalize (Z.to_nat T). intros n. induction n as [|n IH].
    + constructor.
    + rewrite gd_log_S. apply StronglySorted_app_2; [| done |].
      * intros [t1 v1] [t2 v2] H1%elem_of_gd_log
          (_ & -> & _)%elem_of_log_line. simpl. lia.
      * unfold log_line. case_decide; repeat constructor.
  - intros t v. rewrite elem_of_gd_log.
    set (b := (gd_params X y α bc0 (Z.to_nat t)).1).
    set (c := (gd_params X y α bc0 (Z.to_nat t)).2).
    destruct (evaluate_regression_ok y (predictions X b c))
      as (d & rmse & Hd & Hrmse).
    { by rewrite length_predictions. }
    { intros Hnil. apply Hy, length_zero_iff_nil.
      by rewrite <- Hn, <- (length_predictions X b c), Hnil. }
    pose proof (printed_mse X y b c d rmse Hn Hd Hrmse) as Hsq.
    unfold getitem in Hrmse.
    destruct (d !! "RMSE") as [rmse'|] eqn:Hlook; [| done].
    injection Hrmse as ->.
    split.
    + intros (Ht & Hmod & ->). split; [lia |]. split; [done |].
      exists d, rmse. by rewrite Hsq.
    + intros (Ht & Hmod & d' & rmse' & Hd' & Hlook' & ->).
      split; [lia |]. split; [done |].
      rewrite Hd in Hd'. injection Hd' as <-.
      rewrite Hlook in Hlook'. injection Hlook' as <-. done.
Qed.

Lemma fit_gradient_descent_prints_witness :
  let X := Array2 2 [[1; 1]; [1; 2]] in
  let y : list R := [1; 2] in
  let r := fit_gradient_descent (λ _, 0) X y 0.1 2 (World init [] 0) in
  let bc0 := gd_initial (λ _, 0) 0 1 in
  ∃ printed,
    stdout (snd r) = [] ++ printed
    ∧ StronglySorted (λ a b, a.1 < b.1)%Z printed
    ∧ (∀ t v, (t, v) ∈ printed
              ↔ (0 ≤ t < 2)%Z ∧ (t mod 100000 = 0)%Z
                ∧ ∃ d rmse,
                    evaluate_regression y
                      (predictions X (gd_params X y 0.1 bc0 (Z.to_nat t)).1
                         (gd_params X y 0.1 bc0 (Z.to_nat t)).2)
                    = Ok d
                    ∧ d !! "RMSE" = Some rmse
                    ∧ v = rmse ^ 2)
    ∧ drawn (snd r) = (0 + 2)%nat.
Proof.
  intros X y.
  apply (fit_gradient_descent_prints (λ _, 0) X y 0.1 2
           (World init [] 0)); [done | done | simpl; lia].
Defined.

(** ** Gradient descent: where the update does nothing *)

Lemma nth_zeros (v : list R) i : Forall (λ x, x = 0) v → nth i v 0 = 0.
Proof.
  intros Hv. revert i. induction Hv as [|x v Hx _ IH]; intros [|i]; simpl;
    auto.
Qed.

Lemma map_zero_seq (f : nat → R) start n :
  (∀ j, f j = 0) → map f (seq start n) = replicate n 0.
Proof.
  intros Hf. revert start. induction n as [|n IH]; intros start; simpl;
    [done |]. by rewrite Hf, IH.
Qed.

Lemma zip_with_Rminus_zeros (c : list R) :
  zip_with Rminus c (replicate (length c) 0) = c.
Proof.
  induction c as [|a c IH]; simpl; [done |]. rewrite IH. f_equal. lra.
Qed.

Lemma gd_update_zero_gradient X y α b c :
  ncols X = S (length c) →
  gradient X y α b c = replicate (ncols X) 0 →
  gd_update X y α (b, c) = (b, c).
Proof.
  intros Hp Hg. unfold gd_update. simpl. rewrite Hg, Hp. simpl.
  rewrite zip_with_Rminus_zeros. f_equal. lra.
Qed.

Lemma gradient_zero_errors X y α b c :
  Forall (λ x, x = 0) (errors X y b c) →
  gradient X y α b c = replicate (ncols X) 0.
Proof.
  intros Hz. unfold gradient. apply map_zero_seq. intros j.
  rewrite sum_zeros; [lra |].
  apply Forall_map, Forall_true. intros i. simpl.
  rewrite (nth_zeros _ i Hz). lra.
Qed.


(** An epoch run on parameters that reproduce [y] exactly leaves them as
    they are and records a loss of 0. *)
Theorem gradient_descent_epoch_fixed_point (X : array2 R) (y : list R)
    (α : R) (epoch : Z) (w : world) (b : R) (c : list R) (losses : list R) :
  y ≠ [] →
  ncols X = S (length c) →
  coefficients (self w) = Some c →
  intercept (self w) = Some b →
  loss_values (self w) = Some losses →
  predictions X b c = y →
  let r := gradient_descent_epoch X y α (length y) epoch w in
  fst r = Ok tt
  ∧ coefficients (self (snd r)) = Some c
  ∧ intercept (self (snd r)) = Some b
  ∧ loss_values (self (snd r)) = Some (losses ++ [0]).
Proof.
  intros Hy Hp Hc Hb Hl Hfit r.
  assert (Hn : nrows X = length y) by (by rewrite <- Hfit, length_predictions).
  assert (Hz : Forall (λ x, x = 0) (errors X y b c)).
  { unfold errors. rewrite Hfit. apply zip_with_Rminus_diag. }
  pose proof (wp_epoch_world X y α epoch w b c Hn Hy Hp Hc Hb) as Hwp.
  apply wp_run in Hwp. fold r in Hwp.
  destruct (fst r) as [[]|e]; [| done].
  rewrite gd_update_zero_gradient in Hwp
    by (by try apply gradient_zero_errors).
  rewrite Hwp. simpl. rewrite Hl. simpl. split_and!; try done.
  do 3 f_equal. unfold mse, mean. rewrite sum_zeros; [unfold Rdiv; lra |].
  apply Forall_map. eapply Forall_impl; [exact Hz |].
  intros x ->. unfold square. simpl. lra.
Qed.

Lemma gradient_descent_epoch_fixed_point_witness :
  let X := Array2 2 [[1; 1]; [1; 2]] in
  let w := World (Build (Some [2]) (Some 0) (Some []) (Some [])) [] 0 in
  let y := predictions X 0 [2] in
  let r := gradient_descent_epoch X y 0.1 (length y) 0 w in
  fst r = Ok tt
  ∧ coefficients (self (snd r)) = Some [2]
  ∧ intercept (self (snd r)) = Some 0
  ∧ loss_values (self (snd r)) = Some ([] ++ [0]).
Proof.
  intros X w y.
  apply (gradient_descent_epoch_fixed_point X y 0.1 0 w 0 [2] []); done.
Defined.





(** ** Gradient descent: the intercept *)

Lemma sum_nth (v : list R) :
  sum (map (λ i, nth i v 0) (seq 0 (length v))) = sum v.
Proof.
  induction v as [|a v IH]; simpl; [done |].
  by rewrite <- seq_shift, map_map, IH.
Qed.

Lemma nth_with_bias X0 i :
  (i < nrows X0)%nat → nth 0 (nth i (rows (with_bias X0)) []) 0 = 1.
Proof.
  unfold with_bias, nrows. simpl. revert i.
  induction (rows X0) as [|r l IH]; intros [|i] Hi; simpl in *;
    [lia | lia | done | apply IH; lia].
Qed.

Lemma predictions_with_bias X0 b c :
  predictions (with_bias X0) b c = map (λ row, inner row c + b) (rows X0).
Proof. unfold predictions, with_bias. simpl. by rewrite map_map. Qed.

(** On the array [fit] builds (a column of ones in front of the data), an
    epoch computes its predictions from the data columns alone and moves
    the intercept by the learning rate times the mean error. *)
Theorem gradient_descent_intercept_step (X0 : array2 R) (y : list R)
    (α : R) (epoch : Z) (w : world) (b : R) (c : list R) :
  nrows X0 = length y →
  y ≠ [] →
  ncols X0 = length c →
  coefficients (self w) = Some c →
  intercept (self w) = Some b →
  let r := gradient_descent_epoch (with_bias X0) y α (length y) epoch w in
  let error := zip_with Rminus (map (λ row, inner row c + b) (rows X0)) y in
  fst r = Ok tt
  ∧ intercept (self (snd r)) = Some (b - α * mean error).
Proof.
  intros Hn Hy Hp Hc Hb r error.
  assert (Hn' : nrows (with_bias X0) = length y)
    by (by rewrite nrows_with_bias).
  assert (Hp' : ncols (with_bias X0) = S (length c)) by (simpl; lia).
  pose proof (wp_epoch_world (with_bias X0) y α epoch w b c
                Hn' Hy Hp' Hc Hb) as Hwp.
  apply wp_run in Hwp. fold r in Hwp.
  destruct (fst r) as [[]|e]; [| done]. rewrite Hwp.
  split; [done |]. simpl. do 2 f_equal.
  assert (Herr : errors (with_bias X0) y b c = error).
  { unfold errors. by rewrite predictions_with_bias. }
  assert (Hlen : length error = length y).
  { rewrite <- Herr. by apply length_errors. }
  rewrite Herr.
  assert (Hsum : sum (map (λ i, nth 0 (nth i (rows (with_bias X0)) []) 0
                                * nth i error 0) (seq 0 (length y)))
                 = sum error).
  { rewrite <- (sum_nth error), Hlen. f_equal.
    apply map_ext_in. intros i Hi%in_seq.
    rewrite nth_with_bias by lia. lra. }
  simpl in Hsum. rewrite Hsum. unfold mean. rewrite Hlen. unfold Rdiv. ring.
Qed.

Lemma gradient_descent_intercept_step_witness :
  let X0 := Array2 1 [[1]; [2]] in
  let w := World (Build (Some [0]) (Some 0) (Some []) (Some [])) [] 0 in
  let r := gradient_descent_epoch (with_bias X0) [1; 2] 0.1 (length [1; 2])
             0 w in
  let error := zip_with Rminus (map (λ row, inner row [0] + 0) (rows X0))
                 [1; 2] in
  fst r = Ok tt
  ∧ intercept (self (snd r)) = Some (0 - 0.1 * mean error).
Proof.
  intros X0 w.
  apply (gradient_descent_intercept_step X0 [1; 2] 0.1 0 w 0 [0]); done.
Defined.

(** ** Gradient descent: what a failing call leaves behind *)

Lemma wp_and {A} (m : M A) Q1 Q2 E1 E2 w :
  wp m Q1 E1 w → wp m Q2 E2 w →
  wp m (λ a w', Q1 a w' ∧ Q2 a w') (λ e w', E1 e w' ∧ E2 e w') w.
Proof. unfold wp. destruct (m w) as [[a|e] w']; auto. Qed.

Lemma wp_epoch_training_state X y lr m epoch d w :
  training_state d w →
  wp (gradient_descent_epoch X y lr m epoch)
    (λ _ w', training_state d w') (λ _ w', training_state d w') w.
Proof.
  intros (Hd & [l Hl] & [h Hh]).
  destruct w as [[c0 b0 l0 h0] out n]. simpl in *. subst d l0 h0.
  assert (Hkeep : ∀ c b l' h' out',
    training_state n (World (Build c b (Some l') (Some h')) out' n)).
  { intros. split_and!; simpl; eauto. }
  unfold gradient_descent_epoch, predict.
  apply wp_bind, wp_bind, wp_get_self. simpl.
  destruct c0 as [c|]; [| apply wp_raise, Hkeep].
  destruct b0 as [b|]; [| apply wp_raise, Hkeep].
  apply wp_lift.
  destruct (rbind (dot (cols_from_1 X) c) _) as [predictions|];
    [| apply Hkeep].
  apply wp_bind, wp_lift.
  destruct (broadcast Rminus predictions y) as [error|]; [| apply Hkeep].
  apply wp_bind, wp_set_self.
  unfold get_intercept, get_coefficients.
  apply wp_bind, wp_bind, wp_get_self. simpl. apply wp_ret.
  apply wp_bind, wp_bind, wp_get_self. simpl. apply wp_ret.
  apply wp_bind, wp_set_self.
  apply wp_bind, wp_lift.
  destruct (float_div_int lr m) as [scale|]; [| apply Hkeep].
  apply wp_bind, wp_lift.
  destruct (dot (transpose X) error) as [xte|]; [| apply Hkeep].
  apply wp_bind, wp_lift.
  destruct (item0 (map (Rmult scale) xte)) as [g0|]; [| apply Hkeep].
  apply wp_bind, wp_bind, wp_get_self. simpl. apply wp_ret.
  apply wp_bind, wp_set_self.
  apply wp_bind, wp_bind, wp_get_self. simpl. apply wp_ret.
  apply wp_bind, wp_lift.
  destruct (broadcast_inplace Rminus c _) as [c'|]; [| apply Hkeep].
  apply wp_bind, wp_set_self. simpl.
  case_decide; [| apply wp_ret, Hkeep].
  apply wp_bind, wp_lift.
  destruct (evaluate_regression y predictions) as [dict|]; [| apply Hkeep].
  apply wp_bind, wp_lift.
  destruct (getitem dict "RMSE") as [rmse|]; [| apply Hkeep].
  apply wp_print, Hkeep.
Qed.

(** A call of [fit] with "gradient_descent" writes the model whether it
    returns or raises: afterwards both parameters are set, with one
    coefficient per feature, both histories exist, and one random number
    per feature and one more have been drawn. *)
Theorem fit_gradient_descent_always_writes pinv tape (X : ndarray)
    (y : list R) (lr : R) (iterations : Z) (w : world) :
  let r := fit pinv tape X y "gradient_descent" lr iterations w in
  fitted_with (feature_count X) (self (snd r))
  ∧ is_Some (loss_values (self (snd r)))
  ∧ is_Some (param_history (self (snd r)))
  ∧ drawn (snd r) = (drawn w + feature_count X + 1)%nat.
Proof.
  simpl. unfold fit. simpl. fold (as_matrix X).
  set (Xb := c_ (ones (nrows (as_matrix X))) (as_matrix X)).
  assert (Hwp : wp (fit_gradient_descent tape Xb y lr iterations)
    (λ _ w', fitted_with (feature_count X) (self w')
             ∧ training_state (drawn w + feature_count X + 1) w')
    (λ _ w', fitted_with (feature_count X) (self w')
             ∧ training_state (drawn w + feature_count X + 1) w') w).
  { unfold fit_gradient_descent.
    apply wp_bind. unfold random_rand_n.
    rewrite decide_False by (unfold Xb; simpl; lia).
    apply run_wp. simpl. apply wp_bind, wp_set_self.
    apply wp_bind, run_wp. simpl.
    apply wp_bind, wp_set_self. apply wp_bind, wp_set_self.
    apply wp_bind, wp_set_self. simpl.
    replace (Z.to_nat (Z.of_nat (S (ncols (as_matrix X))) - 1))
      with (feature_count X) by (rewrite <- feature_count_as_matrix; lia).
    apply (wp_for_range
             (λ w', fitted_with (feature_count X) (self w')
                    ∧ training_state (drawn w + feature_count X + 1) w')).
    - split.
      + eexists _, _. split_and!; [done..|]. simpl.
        by rewrite !length_map, length_seq.
      + split_and!; simpl; eauto. lia.
    - intros i w' [Hf Ht].
      eapply wp_mono.
      * apply wp_and;
          [apply (wp_epoch_fitted _ _ _ _ _ _ _ Hf)
          | apply (wp_epoch_training_state _ _ _ _ _ _ _ Ht)].
      * intros ? w'' HQ. exact HQ.
      * intros e w'' [[_ Hf'] Ht']. by split.
    - done. }
  apply wp_run in Hwp.
  destruct (fit_gradient_descent tape Xb y lr iterations w) as [[[]|e] w'];
    simpl in *; destruct Hwp as (? & ? & ? & ?); done.
Qed.

Lemma gd_initial_range tape d p :
  (∀ k, 0 <= tape k < 1) →
  0 <= (gd_initial tape d p).1 < 0.01
  ∧ Forall (λ v, 0 <= v < 0.01) (gd_initial tape d p).2.
Proof.
  intros Htape. unfold gd_initial. simpl. split.
  - specialize (Htape (d + p)%nat). lra.
  - rewrite !Forall_map. apply Forall_true. intros k. simpl.
    specialize (Htape k). lra.
Qed.

(** With an iteration count of zero or less, [fit] with
    "gradient_descent" returns for any data, also data it could not train
    on: the parameters are the random draws scaled by 0.01 (so in
    [[0, 0.01)] when the draws are in [[0, 1)]), and both histories are
    empty. *)
Theorem fit_gradient_descent_no_iterations pinv tape (X : ndarray)
    (y : list R) (lr : R) (iterations : Z) (w : world) :
  (iterations ≤ 0)%Z →
  let bc0 := gd_initial tape (drawn w) (feature_count X) in
  let r := fit pinv tape X y "gradient_descent" lr iterations w in
  fst r = Ok tt
  ∧ self (snd r) = Build (Some bc0.2) (Some bc0.1) (Some []) (Some [])
  ∧ stdout (snd r) = stdout w
  ∧ ((∀ k, 0 <= tape k < 1) →
     0 <= bc0.1 < 0.01 ∧ Forall (λ v, 0 <= v < 0.01) bc0.2).
Proof.
  intros HT bc0 r. subst r. unfold fit. simpl. fold (as_matrix X).
  unfold fit_gradient_descent, bind, random_rand_n.
  rewrite decide_False by (simpl; lia). simpl.
  replace (Z.to_nat iterations) with 0%nat by lia. simpl.
  rewrite feature_count_as_matrix.
  replace (Z.to_nat (Z.of_nat (S (feature_count X)) - 1))
    with (feature_count X) by lia.
  split_and!; try done. apply gd_initial_range.
Qed.

Lemma fit_gradient_descent_no_iterations_witness :
  let r := fit pinv_2x2 (λ _, 0) example_X [] "gradient_descent" 0.01 (-5)
             (World init [] 0) in
  fst r = Ok tt
  ∧ self (snd r)
    = Build (Some (gd_initial (λ _, 0) 0 1).2)
        (Some (gd_initial (λ _, 0) 0 1).1) (Some []) (Some [])
  ∧ stdout (snd r) = [].
Proof.
  destruct (fit_gradient_descent_no_iterations pinv_2x2 (λ _, 0) example_X []
              0.01 (-5) (World init [] 0)) as (H1 & H2 & H3 & _); [lia |].
  auto.
Defined.

(** ** Gradient descent: the shapes it accepts *)

Lemma wp_const {A} (m : M A) (P : Prop) w :
  P → wp m (λ _ _, P) (λ _ _, True) w.
Proof. intros HP. unfold wp. by destruct (m w) as [[a|e] w']. Qed.

Lemma broadcast_length f (u v r : list R) :
  broadcast f u v = Ok r →
  (length u = length v ∧ length r = length u)
  ∨ (length v = 1%nat ∧ length r = length u)
  ∨ (length u = 1%nat ∧ length r = length v).
Proof.
  unfold broadcast. case_decide as Hlen.
  - intros [= <-]. left. rewrite length_zip_with. lia.
  - destruct u as [|a [|a' u]], v as [|b [|b' v]]; simpl in *;
      try done; intros [= <-]; simpl; rewrite ?length_map; simpl; auto.
Qed.

Lemma wp_first_epoch_shapes X y lr w b c :
  ncols X = S (length c) →
  coefficients (self w) = Some c →
  intercept (self w) = Some b →
  wp (gradient_descent_epoch X y lr (length y) 0)
    (λ _ _, (1 ≤ nrows X)%nat
            ∧ (length y = nrows X ∨ length y = 1%nat))
    (λ _ _, True) w.
Proof.
  intros Hp Hc Hb. unfold gradient_descent_epoch.
  apply wp_bind, run_wp.
  rewrite (predict_non_bias_columns X w c b Hc Hb Hp). simpl.
  apply wp_bind, wp_lift.
  destruct (broadcast Rminus (predictions X b c) y) as [error|] eqn:Herr;
    [| done].
  apply broadcast_length in Herr. rewrite length_predictions in Herr.
  apply wp_bind, wp_set_self.
  unfold get_intercept, get_coefficients.
  apply wp_bind, wp_bind, wp_get_self. simpl. rewrite ?Hb. apply wp_ret.
  apply wp_bind, wp_bind, wp_get_self. simpl. rewrite ?Hc. apply wp_ret.
  apply wp_bind, wp_set_self.
  apply wp_bind, wp_lift.
  destruct (float_div_int lr (length y)) as [scale|]; [| done].
  apply wp_bind, wp_lift.
  destruct (dot (transpose X) error) as [xte|] eqn:Hdot; [| done].
  unfold dot in Hdot. case_decide as Hshape; [| done]. simpl in Hshape.
  apply wp_bind, wp_lift.
  destruct (item0 (map (Rmult scale) xte)) as [g0|]; [| done].
  apply wp_bind, wp_bind, wp_get_self. simpl. rewrite ?Hb. apply wp_ret.
  apply wp_bind, wp_set_self.
  apply wp_bind, wp_bind, wp_get_self. simpl. rewrite ?Hc. apply wp_ret.
  apply wp_bind, wp_lift.
  destruct (broadcast_inplace Rminus c _) as [c'|]; [| done].
  apply wp_bind, wp_set_self. simpl.
  apply wp_bind, wp_lift.
  pose proof (evaluate_regression_cases y (predictions X b c)) as Hout.
  destruct (evaluate_regression y (predictions X b c)) as [d|]; [| done].
  destruct Hout as [_ Hne].
  apply wp_const.
  assert (nrows X ≠ 0%nat).
  { intros Hz. apply Hne. apply length_zero_iff_nil.
    by rewrite length_predictions. }
  lia.
Qed.

(** With at least one iteration, [fit] with "gradient_descent" returns
    only if X has at least one row and [y] has either one entry per row of
    X or a single entry. *)
Theorem fit_gradient_descent_returns_only_if pinv tape (X : ndarray)
    (y : list R) (lr : R) (iterations : Z) (w : world) :
  (1 ≤ iterations)%Z →
  fst (fit pinv tape X y "gradient_descent" lr iterations w) = Ok tt →
  (1 ≤ nrows (as_matrix X))%nat
  ∧ (length y = nrows (as_matrix X) ∨ length y = 1%nat).
Proof.
  intros HT. unfold fit. simpl. fold (as_matrix X). rewrite c__ones.
  set (Xb := with_bias (as_matrix X)).
  assert (Hwp : wp (fit_gradient_descent tape Xb y lr iterations)
    (λ _ _, (1 ≤ nrows Xb)%nat ∧ (length y = nrows Xb ∨ length y = 1%nat))
    (λ _ _, True) w).
  { unfold fit_gradient_descent.
    apply wp_bind. unfold random_rand_n.
    rewrite decide_False by (unfold Xb; simpl; lia).
    apply run_wp. simpl. apply wp_bind, wp_set_self.
    apply wp_bind, run_wp. simpl.
    apply wp_bind, wp_set_self. apply wp_bind, wp_set_self.
    apply wp_bind, wp_set_self. simpl.
    destruct (Z.to_nat iterations) as [|k] eqn:Hk; [lia |].
    simpl. apply wp_bind.
    eapply wp_mono; [eapply wp_first_epoch_shapes; [| done | done] | |].
    - simpl. rewrite !length_map, length_seq. lia.
    - intros ? w' HP. by apply wp_const.
    - done. }
  apply wp_run in Hwp. intros Hok. rewrite Hok in Hwp.
  unfold Xb in Hwp. by rewrite nrows_with_bias in Hwp.
Qed.

Lemma fit_gradient_descent_returns pinv tape (X : ndarray) (y : list R)
    (lr : R) (iterations : Z) (w : world) :
  nrows (as_matrix X) = length y →
  y ≠ [] →
  fst (fit pinv tape X y "gradient_descent" lr iterations w) = Ok tt.
Proof.
  intros Hn Hy. unfold fit. simpl. fold (as_matrix X). rewrite c__ones.
  rewrite fit_gradient_descent_run; [done | | done | simpl; lia].
  by rewrite nrows_with_bias.
Qed.

Lemma fit_gradient_descent_returns_only_if_witness :
  let X := A1 [1; 2] in
  let y : list R := [1; 2] in
  (1 ≤ nrows (as_matrix X))%nat
  ∧ (length y = nrows (as_matrix X) ∨ length y = 1%nat).
Proof.
  intros X y.
  apply (fit_gradient_descent_returns_only_if transpose (λ _, 0) X y 0.1 1
           (World init [] 0)); [lia |].
  by apply fit_gradient_descent_returns.
Defined.

(** ** [one_hot_encode]: its arguments *)

Lemma sorted_reverse_sorted l : StronglySorted (flip Z.le) (sorted_reverse l).
Proof.
  apply StronglySorted_merge_sort.
  - intros a b c. unfold flip. lia.
  - intros a b. unfold flip. lia.
Qed.

(** The order in which the indices are listed does not matter. *)
Theorem one_hot_encode_permutation (dt : dtype) (X : array2 cell)
    (indices indices' : list Z) (drop_first : bool) :
  indices ≡ₚ indices' →
  one_hot_encode dt X indices drop_first = one_hot_encode dt X indices' drop_first.
Proof.
  intros Hperm. unfold one_hot_encode.
  replace (sorted_reverse indices') with (sorted_reverse indices); [done |].
  assert (Hanti : AntiSymm (=) (flip Z.le)).
  { intros a b. unfold flip. lia. }
  apply (StronglySorted_unique (flip Z.le)).
  - apply sorted_reverse_sorted.
  - apply sorted_reverse_sorted.
  - by rewrite !sorted_reverse_perm.
Qed.

Lemma one_hot_encode_permutation_witness :
  one_hot_encode (unicode 1) example_cells [0%Z; 0%Z; 1%Z] true
  = one_hot_encode (unicode 1) example_cells [1%Z; 0%Z; 0%Z] true.
Proof.
  apply one_hot_encode_permutation.
  apply (Permutation_app_comm [0%Z; 0%Z] [1%Z]).
Defined.

Lemma foldl_rbind_raise {A B} (f : A → B → result A) e (l : list B) :
  foldl (λ acc i, rbind acc (λ a, f a i)) (Raise e) l = Raise e.
Proof. induction l as [|i l IH]; simpl; [done | exact IH]. Qed.

Lemma foldl_rbind_ok {A B} (f : A → B → result A) (l : list B) a b :
  foldl (λ acc i, rbind acc (λ a, f a i)) (Ok a) l = Ok b →
  ∀ i, i ∈ l → ∃ a' b', f a' i = Ok b'.
Proof.
  revert a. induction l as [|i l IH]; intros a Hfold j Hj.
  - by apply elem_of_nil in Hj.
  - simpl in Hfold. destruct (f a i) as [a1|e] eqn:Hstep.
    + apply elem_of_cons in Hj as [-> | Hj]; [eauto |].
      by apply (IH a1).
    + by rewrite foldl_rbind_raise in Hfold.
Qed.

Lemma normalize_index_ok n upper idx j :
  normalize_index n upper idx = Ok j →
  (- Z.of_nat n ≤ idx < upper)%Z
  ∧ j = Z.to_nat (if decide (idx < 0)%Z then idx + Z.of_nat n else idx).
Proof.
  unfold normalize_index. case_decide; [| done]. by intros [= <-].
Qed.

(** [one_hot_encode] returns only if every index lies between minus the
    number of columns of X and that number (excluded), and only if the
    values of each indexed column can be compared with one another. *)
Theorem one_hot_encode_returns_only_if (dt : dtype) (X Y : array2 cell)
    (indices : list Z) (drop_first : bool) :
  one_hot_encode dt X indices drop_first = Ok Y →
  ∀ idx, idx ∈ indices →
    (- Z.of_nat (ncols X) ≤ idx < Z.of_nat (ncols X))%Z
    ∧ homogeneous (cell_column X (column_of X idx)) = true.
Proof.
  unfold one_hot_encode. intros Hfold idx Hidx.
  destruct (foldl_rbind_ok (encode_column dt X drop_first) _ _ _ Hfold idx)
    as (Xt & Y' & Hstep).
  { by rewrite sorted_reverse_perm. }
  unfold encode_column, getcol in Hstep.
  destruct (normalize_index _ _ idx) as [j|] eqn:Hj; simpl in Hstep;
    [| done].
  apply normalize_index_ok in Hj as [Hrange ->]. split; [done |].
  unfold unique in Hstep. fold (column_of X idx) in Hstep.
  fold (cell_column X (column_of X idx)) in Hstep.
  by destruct (homogeneous _).
Qed.

Lemma one_hot_encode_returns_only_if_witness :
  (- Z.of_nat (ncols example_cells) ≤ 0 < Z.of_nat (ncols example_cells))%Z
  ∧ homogeneous (cell_column example_cells (column_of example_cells 0)) = true.
Proof.
  apply (one_hot_encode_returns_only_if object example_cells
           (Array2 2 [[CInt 1; CInt 0]; [CInt 0; CInt 1]; [CInt 1; CInt 0]])
           [0%Z] false).
  - vm_compute. reflexivity.
  - by left.
Defined.

(** The index −1 selects the last column, but its indicators are inserted
    before the last column that remains, not in the place of the column
    they encode; on a single column the insertion is refused. *)
Theorem one_hot_encode_index_from_end (dt : dtype) (X : array2 cell)
    (drop_first : bool) :
  wf X →
  rows X ≠ [] →
  (1 ≤ ncols X)%nat →
  homogeneous (cell_column X (ncols X - 1)) = true →
  (ncols X = 1%nat → one_hot_encode dt X [(-1)%Z] drop_first = Raise IndexError)
  ∧ ((2 ≤ ncols X)%nat →
     ∃ Y, one_hot_encode dt X [(-1)%Z] drop_first = Ok Y
          ∧ rows Y
            = map (λ row,
                     take (ncols X - 2) row
                     ++ encoded_cells dt X drop_first (ncols X - 1)
                          (nth (ncols X - 1) row (CInt 0))
                     ++ [nth (ncols X - 2) row (CInt 0)])
                (rows X)).
Proof.
  intros Hwf Hrows Hc Hhom.
  set (j := (ncols X - 1)%nat) in *.
  set (u := sorted_distinct (cell_column X j)).
  assert (Hnorm : normalize_index (ncols X) (Z.of_nat (ncols X)) (-1)
                  = Ok j).
  { unfold normalize_index. rewrite decide_True by lia.
    rewrite decide_True by lia. f_equal. lia. }
  assert (Hoh : ∃ m,
    (if drop_first
     then drop_first_column
            (np_array (map (indicator_row u) (cell_column X j)))
     else Ok (np_array (map (indicator_row u) (cell_column X j))))
    = Ok (I2 m)
    ∧ rows m = map (λ orig,
                      if drop_first
                      then drop 1 (indicator_row u (nth j orig (CInt 0)))
                      else indicator_row u (nth j orig (CInt 0)))
                 (rows X)).
  { unfold cell_column. destruct (rows X) as [|r0 rs]; [done |]. simpl.
    destruct drop_first; simpl; eexists; (split; [done |]); simpl;
      f_equal; by rewrite ?map_map. }
  destruct Hoh as (m & Hm & Hrowsm).
  assert (Hstep : one_hot_encode dt X [(-1)%Z] drop_first
                  = rbind (np_delete X (-1))
                      (λ Xt, np_insert_T dt Xt (-1) (I2 m))).
  { unfold one_hot_encode, sorted_reverse. simpl.
    unfold encode_column, getcol. rewrite Hnorm. simpl.
    fold (cell_column X j). unfold unique. rewrite Hhom. simpl.
    fold u. by rewrite Hm. }
  rewrite Hstep. unfold np_delete. rewrite Hnorm. simpl.
  unfold np_insert_T, normalize_index. simpl. split.
  - intros H1. rewrite decide_False by lia. done.
  - intros H2. rewrite decide_True by lia.
    simpl. rewrite decide_True
      by (unfold nrows; simpl; by rewrite Hrowsm, !length_map).
    eexists. split; [done |]. simpl.
    rewrite Hrowsm, zip_with_fmap_l, zip_with_fmap_r, zip_with_diag.
    apply map_ext_in. intros row Hrow%list_elem_of_In.
    unfold wf in Hwf. rewrite Forall_forall in Hwf.
    specialize (Hwf row Hrow).
    replace (Z.to_nat (-1 + Z.of_nat (ncols X - 1))) with (ncols X - 2)%nat
      by lia.
    assert (Hdel : delete j row = take j row).
    { rewrite delete_take_drop, drop_ge, app_nil_r by lia. done. }
    rewrite Hdel, take_take.
    replace ((ncols X - 2) `min` j)%nat with (ncols X - 2)%nat by lia.
    f_equal. unfold encoded_cells. fold u. f_equal.
    rewrite (drop_S _ (nth (ncols X - 2) row (CInt 0)) (ncols X - 2)).
    + rewrite drop_ge; [done |]. rewrite length_take. lia.
    + rewrite lookup_take_lt by lia. apply lookup_nth. lia.
Qed.

Lemma one_hot_encode_index_from_end_witness :
  one_hot_encode (unicode 1) example_cells [(-1)%Z] false
  = Raise IndexError.
Proof.
  apply (one_hot_encode_index_from_end (unicode 1) example_cells false);
    try done.
  unfold wf, example_cells. simpl. repeat constructor.
Defined.

(** ** [one_hot_encode]: the reference category *)

Lemma ascii_compare_refl a : Ascii.compare a a = Eq.
Proof. unfold Ascii.compare. apply N.compare_refl. Qed.

Lemma ascii_compare_lt_trans a b c :
  Ascii.compare a b = Lt → Ascii.compare b c = Lt → Ascii.compare a c = Lt.
Proof.
  unfold Ascii.compare. rewrite !N.compare_lt_iff. apply N.lt_trans.
Qed.

Lemma ascii_compare_gt_lt a b :
  Ascii.compare a b = Gt → Ascii.compare b a = Lt.
Proof.
  intros H. rewrite Ascii.compare_antisym, H. done.
Qed.

Lemma string_leb_trans (s t u : string) :
  String.leb s t = true → String.leb t u = true → String.leb s u = true.
Proof.
  unfold String.leb. revert t u.
  induction s as [|a s IH]; intros [|b t] [|c u]; simpl; try done.
  destruct (Ascii.compare a b) eqn:Hab; try done;
    destruct (Ascii.compare b c) eqn:Hbc; try done.
  - apply Ascii.compare_eq_iff in Hab as ->.
    apply Ascii.compare_eq_iff in Hbc as ->.
    rewrite ascii_compare_refl. apply IH.
  - apply Ascii.compare_eq_iff in Hab as ->. by rewrite Hbc.
  - apply Ascii.compare_eq_iff in Hbc as <-. by rewrite Hab.
  - by rewrite (ascii_compare_lt_trans a b c).
Qed.

Lemma cell_le_trans : Transitive cell_le.
Proof.
  intros [x|s] [y|t] [z|u]; unfold cell_le; simpl; try done.
  - rewrite !Z.leb_le. lia.
  - apply string_leb_trans.
Qed.

Lemma cell_le_antisym a b : cell_le a b → cell_le b a → a = b.
Proof.
  destruct a as [x|s], b as [y|t]; unfold cell_le; simpl; try done.
  - rewrite !Z.leb_le. intros. f_equal. lia.
  - intros H1 H2. f_equal. by apply String.leb_antisym.
Qed.

Lemma cell_le_refl a : cell_le a a.
Proof. by destruct (cell_le_total a a). Qed.

Lemma sorted_distinct_head_least col c :
  head (sorted_distinct col) = Some c ↔
  c ∈ col ∧ ∀ v, v ∈ col → cell_le c v.
Proof.
  assert (Hs : StronglySorted cell_le (sorted_distinct col)).
  { apply StronglySorted_merge_sort.
    - apply cell_le_trans.
    - intros a b. apply cell_le_total. }
  split.
  - intros Hhead. destruct (sorted_distinct col) as [|h u] eqn:Hu;
      simplify_eq/=.
    apply StronglySorted_inv in Hs as [_ Hall].
    rewrite Forall_forall in Hall. split.
    + apply sorted_distinct_elem_of. rewrite Hu. by left.
    + intros v Hv%sorted_distinct_elem_of. rewrite Hu in Hv.
      apply elem_of_cons in Hv as [-> | Hv];
        [apply cell_le_refl | by apply Hall].
  - intros [Hc Hleast]. apply sorted_distinct_elem_of in Hc.
    destruct (sorted_distinct col) as [|h u] eqn:Hu;
      [by apply elem_of_nil in Hc |].
    simpl. f_equal. apply cell_le_antisym.
    + apply elem_of_cons in Hc as [-> | Hc]; [apply cell_le_refl |].
      apply StronglySorted_inv in Hs as [_ Hall].
      rewrite Forall_forall in Hall. by apply Hall.
    + apply Hleast, sorted_distinct_elem_of. rewrite Hu. by left.
Qed.

Lemma unit_vector_not_zeros k rank :
  (rank < k)%nat → ¬ Forall (λ z, z = 0%Z) (unit_vector k rank).
Proof.
  intros Hr Hall. rewrite Forall_lookup in Hall.
  specialize (Hall rank 1%Z). unfold unit_vector in Hall.
  rewrite list_lookup_insert_eq in Hall by (by rewrite length_replicate).
  by specialize (Hall eq_refl).
Qed.

(** With [drop_first], the rows whose indicators are all zero are exactly
    the rows that hold the smallest value of the column: the category that
    is dropped is the least one. *)
Theorem one_hot_reference_category (col unique_values : list cell)
    (category : cell) :
  unique col = Ok unique_values →
  category ∈ col →
  Forall (λ z, z = 0%Z) (drop 1 (indicator_row unique_values category))
  ↔ ∀ v, v ∈ col → cell_le category v.
Proof.
  unfold unique. destruct (homogeneous col); [| done].
  intros [= <-] Hc.
  pose proof Hc as Hin. apply sorted_distinct_elem_of in Hin.
  apply list_elem_of_lookup_1 in Hin as [rank Hrank].
  pose proof (lookup_lt_Some _ _ _ Hrank) as Hlt.
  rewrite (indicator_row_unit _ _ rank (sorted_distinct_NoDup col) Hrank).
  rewrite drop_1_unit_vector.
  transitivity (head (sorted_distinct col) = Some category).
  - destruct rank as [|rank].
    + rewrite head_lookup. split; [done |]. intros _.
      apply Forall_replicate. done.
    + split.
      * intros Hz. by apply unit_vector_not_zeros in Hz; [| lia].
      * rewrite head_lookup. intros H0.
        pose proof (NoDup_lookup _ _ _ _ (sorted_distinct_NoDup col)
                      Hrank H0). done.
  - rewrite sorted_distinct_head_least. split.
    + by intros [_ Hleast].
    + by intros Hleast.
Qed.

Lemma one_hot_reference_category_witness :
  Forall (λ z, z = 0%Z)
    (drop 1 (indicator_row [CStr "a"; CStr "b"] (CStr "a")))
  ↔ ∀ v, v ∈ [CStr "a"; CStr "b"; CStr "a"] → cell_le (CStr "a") v.
Proof.
  apply (one_hot_reference_category [CStr "a"; CStr "b"; CStr "a"]
           [CStr "a"; CStr "b"] (CStr "a")).
  - vm_compute. reflexivity.
  - by left.
Defined.

(** ** [one_hot_encode]: the layout of the result *)

Lemma length_encoded_cells dt X d j c :
  length (encoded_cells dt X d j c)
  = (length (sorted_distinct (cell_column X j)) - (if d then 1 else 0))%nat.
Proof.
  unfold encoded_cells. rewrite length_map.
  destruct d; rewrite ?length_drop, length_indicator_row; lia.
Qed.

Lemma length_encode_row_from dt X indices d j row :
  length (encode_row_from dt X indices d j row)
  = sum_list (map (encoded_width X indices d) (seq j (length row))).
Proof.
  revert j. induction row as [|c row IH]; intros j; simpl; [done |].
  rewrite length_app, IH. f_equal. unfold encoded_width.
  case_decide; [apply length_encoded_cells | done].
Qed.

Lemma encode_row_column dt X indices d row j :
  (j < length row)%nat →
  take (encoded_width X indices d j)
    (drop (encoded_offset X indices d j) (encode_row dt X indices d row))
  = if decide (Z.of_nat j ∈ indices)
    then encoded_cells dt X d j (nth j row (CInt 0))
    else [nth j row (CInt 0)].
Proof.
  intros Hj. unfold encode_row.
  assert (Hsplit : row = take j row ++ nth j row (CInt 0) :: drop (S j) row).
  { rewrite <- (take_drop j row) at 1. f_equal.
    apply drop_S, lookup_nth. lia. }
  rewrite Hsplit at 1. rewrite encode_row_from_app. simpl.
  rewrite length_take. replace (j `min` length row)%nat with j by lia.
  rewrite drop_app_length'.
  2:{ rewrite length_encode_row_from, length_take.
      by replace (j `min` length row)%nat with j by lia. }
  rewrite take_app_length'; [done |].
  unfold encoded_width. case_decide; [by rewrite length_encoded_cells | done].
Qed.

(** The result has the rows of X, each as long as the widths of its
    columns add up to; the cells that stand for column [j] of X start
    where the cells of the columns before it end: the indicators of the
    row's value for an encoded column, the value itself for any other. *)
Theorem one_hot_encode_layout (dt : dtype) (X : array2 cell)
    (indices : list Z)
    (drop_first : bool) :
  encodable X indices →
  ∃ Y, one_hot_encode dt X indices drop_first = Ok Y
       ∧ nrows Y = nrows X
       ∧ ncols Y = encoded_offset X indices drop_first (ncols X)
       ∧ ∀ i j row row',
           rows X !! i = Some row → rows Y !! i = Some row' →
           (j < ncols X)%nat →
           take (encoded_width X indices drop_first j)
             (drop (encoded_offset X indices drop_first j) row')
           = if decide (Z.of_nat j ∈ indices)
             then encoded_cells dt X drop_first j (nth j row (CInt 0))
             else [nth j row (CInt 0)].
Proof.
  intros (Hwf & Hrows & Hnd & Hcols).
  destruct (one_hot_encode_rows dt X indices drop_first Hwf Hrows Hnd Hcols)
    as (Y & HY & HwfY & HrowsY).
  unfold wf in Hwf, HwfY. rewrite Forall_forall in Hwf, HwfY.
  exists Y. split_and!; [done | | |].
  - unfold nrows. by rewrite HrowsY, length_map.
  - destruct (rows X) as [|r0 rs] eqn:HX; [done |].
    assert (Hr0 : length r0 = ncols X) by (apply Hwf; rewrite ?HX; by left).
    rewrite <- (HwfY (encode_row dt X indices drop_first r0))
      by (rewrite HrowsY; by left).
    unfold encode_row, encoded_offset.
    by rewrite length_encode_row_from, Hr0.
  - intros i j row row' Hrow Hrow' Hj.
    rewrite HrowsY, list_lookup_fmap, Hrow in Hrow'. injection Hrow' as <-.
    apply encode_row_column.
    rewrite (Hwf row); [done | by eapply list_elem_of_lookup_2].
Qed.

Lemma one_hot_encode_layout_witness :
  ∃ Y, one_hot_encode (unicode 1) example_cells [0%Z] false = Ok Y
       ∧ nrows Y = nrows example_cells
       ∧ ncols Y = encoded_offset example_cells [0%Z] false
                     (ncols example_cells).
Proof.
  destruct (one_hot_encode_layout (unicode 1) example_cells [0%Z] false
              example_cells_encodable) as (Y & H1 & H2 & H3 & _).
  exists Y. auto.
Defined.
